(** * KiCad symbol-library indexer: block scanner, field extraction and
      inheritance resolution of [scripts/parse_kicad_python.py].

    The development embeds the script's functions shallowly:
    - text is a list of characters (code points below 256),
    - the regular expressions of the script are values of a small regex
      syntax, run by a backtracking matcher with Python's priorities
      (greedy and lazy repetition, leftmost match, capture groups),
    - [float] is IEEE binary64 ([spec_float]), text is converted with
      correct rounding,
    - a Python [dict] is an insertion-ordered association list,
    - a [ValueError] raised by [float(...)] is the result [None]. *)

From Stdlib Require Import Ascii String ZArith Lia Bool Arith List.
From Stdlib Require Import SpecFloat.
From Equations Require Import Equations.
Import ListNotations.

Set Implicit Arguments.

(** ** Text *)

(** A Python [str] restricted to code points 0..255. *)
Definition str : Type := list ascii.

Definition s_ (x : string) : str := list_ascii_of_string x.

Definition str_eq_dec : forall a b : str, {a = b} + {a <> b} :=
  list_eq_dec ascii_dec.

(** The double-quote character. *)
Definition dq : ascii := ascii_of_nat 34.

(** [quoted x] is the text [x] between double quotes. *)
Definition quoted (x : string) : str := dq :: s_ x ++ [dq].

(** [content.startswith(p, i)], with [s] the suffix [content[i:]]. *)
Fixpoint startswith (p s : str) : bool :=
  match p, s with
  | [], _ => true
  | _ :: _, [] => false
  | a :: p', b :: s' => Ascii.eqb a b && startswith p' s'
  end.

(** ** Character classes of Python's [re] (str patterns) on code points 0..255 *)

Definition code (c : ascii) : nat := nat_of_ascii c.

(** [\s]: the characters for which [str.isspace] holds. *)
Definition is_space (c : ascii) : bool :=
  let n := code c in
  ((9 <=? n) && (n <=? 13)) || ((28 <=? n) && (n <=? 32))
  || (n =? 133) || (n =? 160).

(** [\d]: the decimal digits; below 256 these are ['0'..'9']. *)
Definition is_digit (c : ascii) : bool :=
  let n := code c in (48 <=? n) && (n <=? 57).

(** [[^\s]] *)
Definition non_space (c : ascii) : bool := negb (is_space c).

(** [[-\d.]] *)
Definition is_num (c : ascii) : bool :=
  Ascii.eqb c "-" || is_digit c || Ascii.eqb c ".".

(** Any character but the double quote. *)
Definition non_quote (c : ascii) : bool := negb (Ascii.eqb c dq).

(** [.] under [re.S] *)
Definition any_char (c : ascii) : bool := true.

(** ** Regular expressions *)

(** The constructs the script's patterns use.  Repetition is only ever
    applied to a character class there, the one exception being the
    optional non-capturing group of the pin pattern. *)
Inductive regex : Type :=
| Lit (c : ascii)
| Plus (p : ascii -> bool)
| Star (p : ascii -> bool)
| StarLazy (p : ascii -> bool)
| Opt (r : regex)
| Grp (n : nat) (r : regex)
| Cat (r1 r2 : regex)
| Emp.

Fixpoint lits (s : str) : regex :=
  match s with
  | [] => Emp
  | c :: s' => Cat (Lit c) (lits s')
  end.

Definition seq (rs : list regex) : regex := fold_right Cat Emp rs.

(** Captured groups: number and captured text, most recent first. *)
Definition groups : Type := list (nat * str).

Fixpoint group (n : nat) (g : groups) : option str :=
  match g with
  | [] => None
  | (m, t) :: g' => if Nat.eqb n m then Some t else group n g'
  end.

Section Matcher.
Variable R : Type.

(** [p*] greedy: take as many as possible, give back one at a time. *)
Fixpoint star_greedy (p : ascii -> bool) (s : str)
         (k : str -> option R) : option R :=
  match s with
  | c :: s' =>
      if p c then
        match star_greedy p s' k with
        | Some x => Some x
        | None => k s
        end
      else k s
  | [] => k s
  end.

(** [p*?] lazy: take as few as possible, one more on failure. *)
Fixpoint star_lazy (p : ascii -> bool) (s : str)
         (k : str -> option R) : option R :=
  match k s with
  | Some x => Some x
  | None =>
      match s with
      | c :: s' => if p c then star_lazy p s' k else None
      | [] => None
      end
  end.

(** Backtracking matcher in continuation-passing style: [k] receives the
    text left after the match and the groups captured so far. *)
Fixpoint exec (r : regex) (s : str) (g : groups)
         (k : str -> groups -> option R) : option R :=
  match r with
  | Emp => k s g
  | Lit c =>
      match s with
      | a :: s' => if Ascii.eqb a c then k s' g else None
      | [] => None
      end
  | Plus p =>
      match s with
      | a :: s' => if p a then star_greedy p s' (fun t => k t g) else None
      | [] => None
      end
  | Star p => star_greedy p s (fun t => k t g)
  | StarLazy p => star_lazy p s (fun t => k t g)
  | Opt r1 =>
      match exec r1 s g k with
      | Some x => Some x
      | None => k s g
      end
  | Grp n r1 =>
      exec r1 s g
           (fun t g' => k t ((n, firstn (length s - length t) s) :: g'))
  | Cat r1 r2 => exec r1 s g (fun t g' => exec r2 t g' k)
  end.
End Matcher.

(** [re.match(r, s)]: the text after the match and the groups. *)
Definition re_match (r : regex) (s : str) : option (str * groups) :=
  exec r s [] (fun t g => Some (t, g)).

(** [re.search(r, s)]: the leftmost position at which [r] matches. *)
Fixpoint re_search (r : regex) (s : str) : option (str * groups) :=
  match re_match r s with
  | Some m => Some m
  | None =>
      match s with
      | [] => None
      | _ :: s' => re_search r s'
      end
  end.

(** [r.finditer(s)]: the groups of the successive non-overlapping matches.
    [skip] counts the characters of the previous match still to be passed
    over.  Every pattern of the script starts with a literal, so no match
    is empty. *)
Fixpoint finditer_from (r : regex) (s : str) (skip : nat) : list groups :=
  match s with
  | [] => []
  | _ :: s' =>
      match skip with
      | S n => finditer_from r s' n
      | O =>
          match re_match r s with
          | Some (t, g) => g :: finditer_from r s' (length s - length t - 1)
          | None => finditer_from r s' 0
          end
      end
  end.

Definition finditer (r : regex) (s : str) : list groups :=
  finditer_from r s 0.

(** ** Floating point *)

(** Python's [float] is IEEE 754 binary64. *)
Definition float : Type := spec_float.

Definition prec : Z := 53.
Definition emax : Z := 1024.

(** Exponent of the least significant bit of the subnormal numbers. *)
Definition emin64 : Z := -1074.

Definition flt (a b : float) : bool := SFltb a b.
Definition fle (a b : float) : bool := SFleb a b.
Definition feq (a b : float) : bool := SFeqb a b.
Definition fneg (a : float) : float := SFopp a.

Definition inf : float := S754_infinity false.
Definition neg_inf : float := S754_infinity true.

(** [n / (d * 2^e)] as a numerator and a positive denominator. *)
Definition scaled (n d e : Z) : Z * Z :=
  if (0 <=? e)%Z then (n, (d * 2 ^ e)%Z) else ((n * 2 ^ (- e))%Z, d).

(** The binary64 number nearest to [n / d] for [0 < n] and [0 < d], ties to
    the even mantissa, with the sign [sg]: [float(...)] rounds a decimal
    numeral correctly.  The exponent [e] of the last mantissa bit is chosen
    so that the quotient has 53 bits, or is the least exponent [emin64] for
    a subnormal result; a quotient rounded up to [2^53] moves to the next
    exponent, and an exponent above [emax - prec] overflows to infinity. *)
Definition round_ratio (sg : bool) (n d : Z) : float :=
  let e0 := (Z.log2 n - Z.log2 d)%Z in
  let e1 := Z.max (e0 - 52) emin64 in
  let '(n1, d1) := scaled n d e1 in
  let e := if (emin64 <? e1)%Z && (n1 / d1 <? 2 ^ 52)%Z
           then (e1 - 1)%Z else e1 in
  let '(num, den) := scaled n d e in
  let q := (num / den)%Z in
  let r := (num mod den)%Z in
  let m := match Z.compare (2 * r) den with
           | Lt => q
           | Gt => (q + 1)%Z
           | Eq => if Z.even q then q else (q + 1)%Z
           end in
  let '(m, e) := if (m =? 2 ^ 53)%Z then ((2 ^ 52)%Z, (e + 1)%Z) else (m, e) in
  match m with
  | Zpos p => if (e <=? emax - prec)%Z
              then S754_finite sg p e else S754_infinity sg
  | _ => S754_zero sg
  end.

(** The longest prefix of characters of a class, and the rest. *)
Fixpoint span (p : ascii -> bool) (s : str) : str * str :=
  match s with
  | c :: s' =>
      if p c then let '(a, b) := span p s' in (c :: a, b) else ([], s)
  | [] => ([], [])
  end.

Definition digit_value (c : ascii) : Z := Z.of_nat (code c - 48).

Definition digits_value (ds : str) : Z :=
  fold_left (fun acc c => (10 * acc + digit_value c)%Z) ds 0%Z.

(** [float(s)] for a text of the class [[-\d.]]: an optional minus sign,
    then digits with at most one point and at least one digit; anything
    else raises [ValueError] ([None]). *)
Definition float_of_string (s : str) : option float :=
  let '(sg, body) :=
    match s with
    | c :: t => if Ascii.eqb c "-" then (true, t) else (false, s)
    | [] => (false, s)
    end in
  let '(ip, r1) := span is_digit body in
  let '(fp, r2) :=
    match r1 with
    | c :: t => if Ascii.eqb c "." then span is_digit t else ([], r1)
    | [] => ([], r1)
    end in
  match r2, ip ++ fp with
  | _ :: _, _ => None
  | [], [] => None
  | [], ds =>
      let n := digits_value ds in
      if (n =? 0)%Z then Some (S754_zero sg)
      else Some (round_ratio sg n (10 ^ Z.of_nat (length fp)))
  end.

(** [min(a, b)] and [max(a, b)]: the first argument is kept unless the
    second is strictly smaller, or strictly larger. *)
Definition pymin (a b : float) : float := if flt b a then b else a.
Definition pymax (a b : float) : float := if flt a b then b else a.

(** ** Data model *)

(** The value of a pin's [orientation]: [float(...)] of the angle, or the
    integer [0] when the angle is absent. *)
Inductive pynum : Type :=
| PyInt (z : Z)
| PyFloat (f : float).

Module Pin.
Record t : Type := mk {
  electrical_type : str;
  x : float;
  y : float;
  orientation : pynum;
  name : str;
  number : str
}.
End Pin.

Module BBox.
Record t : Type := mk {
  minX : float;
  maxX : float;
  minY : float;
  maxY : float
}.
End BBox.

Module Sym.
Record t : Type := mk {
  id : str;
  pins : list Pin.t;
  bbox : option BBox.t;
  extends : option str;
  kicad_sym_raw : str
}.

(** [sym["pins"] = ps] and [sym["bbox"] = b]. *)
Definition set_pins (ps : list Pin.t) (e : t) : t :=
  mk (id e) ps (bbox e) (extends e) (kicad_sym_raw e).
Definition set_bbox (b : option BBox.t) (e : t) : t :=
  mk (id e) (pins e) b (extends e) (kicad_sym_raw e).
End Sym.

(** ** The patterns of the script *)

(** In the comments below [Q] stands for the double-quote character. *)

(** [\(symbol\s+Q([^Q]+)Q] *)
Definition symbol_id_regex : regex :=
  seq [lits (s_ "(symbol"); Plus is_space; Lit dq;
       Grp 1 (Plus non_quote); Lit dq].

(** [\(pin\s+([^\s]+)\s+[^\s]+\s*.*?\(at\s+([-\d.]+)\s+([-\d.]+)(?:\s+([-\d.]+))?\).*?\(name\s+Q([^Q]+)Q\).*?\(number\s+Q([^Q]+)Q]
    compiled with [re.S]. *)
Definition pin_regex : regex :=
  seq [lits (s_ "(pin"); Plus is_space; Grp 1 (Plus non_space);
       Plus is_space; Plus non_space; Star is_space; StarLazy any_char;
       lits (s_ "(at"); Plus is_space; Grp 2 (Plus is_num);
       Plus is_space; Grp 3 (Plus is_num);
       Opt (Cat (Plus is_space) (Grp 4 (Plus is_num))); Lit ")";
       StarLazy any_char;
       lits (s_ "(name"); Plus is_space; Lit dq; Grp 5 (Plus non_quote);
       Lit dq; Lit ")";
       StarLazy any_char;
       lits (s_ "(number"); Plus is_space; Lit dq; Grp 6 (Plus non_quote);
       Lit dq].

(** [\(rectangle\s+\(start\s+([-\d.]+)\s+([-\d.]+)\)\s+\(end\s+([-\d.]+)\s+([-\d.]+)\)] *)
Definition rect_regex : regex :=
  seq [lits (s_ "(rectangle"); Plus is_space;
       lits (s_ "(start"); Plus is_space; Grp 1 (Plus is_num);
       Plus is_space; Grp 2 (Plus is_num); Lit ")"; Plus is_space;
       lits (s_ "(end"); Plus is_space; Grp 3 (Plus is_num);
       Plus is_space; Grp 4 (Plus is_num); Lit ")"].

(** [\(polyline\s+\(pts(.*?)\)\)] compiled with [re.S]. *)
Definition polyline_regex : regex :=
  seq [lits (s_ "(polyline"); Plus is_space; lits (s_ "(pts");
       Grp 1 (StarLazy any_char); Lit ")"; Lit ")"].

(** [\(xy\s+([-\d.]+)\s+([-\d.]+)\)] *)
Definition xy_regex : regex :=
  seq [lits (s_ "(xy"); Plus is_space; Grp 1 (Plus is_num);
       Plus is_space; Grp 2 (Plus is_num); Lit ")"].

(** [\(extends\s+Q([^Q]+)Q\)] *)
Definition extends_regex : regex :=
  seq [lits (s_ "(extends"); Plus is_space; Lit dq;
       Grp 1 (Plus non_quote); Lit dq; Lit ")"].

(** [m.group(n)] of a group that took part in the match; the empty text
    stands for a group that did not. *)
Definition group_text (n : nat) (g : groups) : str :=
  match group n g with
  | Some t => t
  | None => []
  end.

(** ** Field extraction: [parse_symbol_block] *)

(** Sequencing of computations that may raise. *)
Definition bind {A B : Type} (a : option A) (f : A -> option B) : option B :=
  match a with
  | Some v => f v
  | None => None
  end.

Notation "x <- a ;; b" := (bind a (fun x => b))
  (at level 61, a at next level, right associativity).

Fixpoint mapM {A B : Type} (f : A -> option B) (l : list A)
  : option (list B) :=
  match l with
  | [] => Some []
  | a :: l' => b <- f a ;; bs <- mapM f l' ;; Some (b :: bs)
  end.

(** The dictionary appended to [pins] for one match of [pin_regex]. *)
Definition pin_of_match (m : groups) : option Pin.t :=
  px <- float_of_string (group_text 2 m) ;;
  py <- float_of_string (group_text 3 m) ;;
  o <- match group 4 m with
       | Some ((_ :: _) as a) => f <- float_of_string a ;; Some (PyFloat f)
       | _ => Some (PyInt 0)
       end ;;
  Some (Pin.mk (group_text 1 m) px (fneg py) o
               (group_text 5 m) (group_text 6 m)).

Definition extract_pins (block : str) : option (list Pin.t) :=
  mapM pin_of_match (finditer pin_regex block).

(** The bounding box of a matched rectangle. *)
Definition rect_bbox (m : groups) : option BBox.t :=
  x1 <- float_of_string (group_text 1 m) ;;
  y1 <- float_of_string (group_text 2 m) ;;
  x2 <- float_of_string (group_text 3 m) ;;
  y2 <- float_of_string (group_text 4 m) ;;
  Some (BBox.mk (pymin x1 x2) (pymax x1 x2) (pymin y1 y2) (pymax y1 y2)).

(** The running envelope [(minX, maxX, minY, maxY)] of the polyline loop. *)
Definition envelope : Type := (float * float * float * float)%type.

Definition envelope0 : envelope := (inf, neg_inf, inf, neg_inf).

Definition add_point (e : envelope) (p : float * float) : envelope :=
  let '(lx, hx, ly, hy) := e in
  let '(px, py) := p in
  (pymin lx px, pymax hx px, pymin ly py, pymax hy py).

(** [float(x), float(y)] for one match of [xy_regex]. *)
Definition xy_of_match (m : groups) : option (float * float) :=
  px <- float_of_string (group_text 1 m) ;;
  py <- float_of_string (group_text 2 m) ;;
  Some (px, py).

(** The inner loop: the points of one polyline body. *)
Definition add_polyline (e : option envelope) (pl : str)
  : option envelope :=
  e0 <- e ;;
  pts <- mapM xy_of_match (finditer xy_regex pl) ;;
  Some (fold_left add_point pts e0).

Definition polyline_bbox (block : str) : option (option BBox.t) :=
  let pls := map (group_text 1) (finditer polyline_regex block) in
  e <- fold_left add_polyline pls (Some envelope0) ;;
  let '(lx, hx, ly, hy) := e in
  if negb (feq lx inf) then Some (Some (BBox.mk lx hx ly hy))
  else Some None.

Definition extract_bbox (block : str) : option (option BBox.t) :=
  match re_search rect_regex block with
  | Some (_, m) => b <- rect_bbox m ;; Some (Some b)
  | None => polyline_bbox block
  end.

Definition extract_extends (block : str) : option str :=
  match re_search extends_regex block with
  | Some (_, m) => Some (group_text 1 m)
  | None => None
  end.

Definition parse_symbol_block (symbol_id block : str) : option Sym.t :=
  ps <- extract_pins block ;;
  b <- extract_bbox block ;;
  Some (Sym.mk symbol_id ps b (extract_extends block) block).

(** ** Dictionaries *)

(** A Python [dict] with text keys: the items in insertion order, each key
    once. *)
Section Dict.
Variable V : Type.

Definition dict : Type := list (str * V).

(** [d.get(k)] *)
Fixpoint dict_get (k : str) (d : dict) : option V :=
  match d with
  | [] => None
  | (k', v) :: d' => if str_eq_dec k k' then Some v else dict_get k d'
  end.

(** [k in d] *)
Definition dict_mem (k : str) (d : dict) : bool :=
  match dict_get k d with
  | Some _ => true
  | None => false
  end.

(** [d[k] = v]: a present key keeps its place, a new one goes last. *)
Fixpoint dict_set (k : str) (v : V) (d : dict) : dict :=
  match d with
  | [] => [(k, v)]
  | (k', v') :: d' =>
      if str_eq_dec k k' then (k', v) :: d' else (k', v') :: dict_set k v d'
  end.

(** [d.update(d2)] *)
Definition dict_update (d d2 : dict) : dict :=
  fold_left (fun acc kv => dict_set (fst kv) (snd kv) acc) d2 d.

Definition keys (d : dict) : list str := map fst d.
End Dict.

Arguments dict_get {V} k d.
Arguments dict_mem {V} k d.
Arguments dict_set {V} k v d.
Arguments dict_update {V} d d2.
Arguments keys {V} d.

(** The symbol index. *)
Definition index : Type := dict Sym.t.

(** ** Block scanner: [parse_kicad_sym] *)

Definition symbol_marker : str := s_ "(symbol".

(** The inner [while] loop, started at the text [s = content[start:]] with
    depth [depth]: the number of characters [i - start] it passes before
    it leaves, by [break] or at the end of the text. *)
Fixpoint block_end (s : str) (depth : Z) : nat :=
  match s with
  | [] => 0
  | c :: s' =>
      if Ascii.eqb c "(" then S (block_end s' (depth + 1))
      else if Ascii.eqb c ")" then
        if (depth - 1 =? 0)%Z then 1 else S (block_end s' (depth - 1))
      else S (block_end s' depth)
  end.

(** [re.match] of the identifier pattern on a block. *)
Definition symbol_id_of (block : str) : option str :=
  match re_match symbol_id_regex block with
  | Some (_, m) => Some (group_text 1 m)
  | None => None
  end.

(** The outer [while] loop at position [i], with [rest = content[i:]]. *)
Equations? scan (rest : str) (symbols : index) : option index
  by wf (length rest) lt :=
  scan [] symbols := Some symbols;
  scan (c :: r) symbols with startswith symbol_marker (c :: r) => {
    | true =>
        let n := block_end (c :: r) 0 in
        let block := firstn n (c :: r) in
        match symbol_id_of block with
        | None => scan (skipn n (c :: r)) symbols
        | Some symbol_id =>
            match parse_symbol_block symbol_id block with
            | Some e => scan (skipn n (c :: r)) (dict_set symbol_id e symbols)
            | None => None
            end
        end
    | false => scan r symbols }.
Proof.
  all: rewrite length_skipn; subst n;
    repeat destruct (_ =? _)%char; simpl; lia.
Qed.

Definition parse_kicad_sym (content : str) : option index :=
  scan content [].

(** ** Inheritance resolution: [resolve_inheritance] *)

(** The truth value of [sym["extends"]]: a non-empty text. *)
Definition truthy (o : option str) : bool :=
  match o with
  | Some (_ :: _) => true
  | _ => false
  end.

(** The two assignments of the loop body: [sym] takes the pins of [base]
    when it has none, and its bounding box when it has none. *)
Definition inherit (base sym : Sym.t) : Sym.t :=
  let sym1 := match Sym.pins sym with
              | [] => Sym.set_pins (Sym.pins base) sym
              | _ :: _ => sym
              end in
  match Sym.bbox sym1 with
  | None => Sym.set_bbox (Sym.bbox base) sym1
  | Some _ => sym1
  end.

(** The body of the loop for the entry stored under [sym_id]; the entry is
    updated in place, so the index read by the later iterations holds the
    updated entry. *)
Definition resolve_step (symbols : index) (sym_id : str) : index :=
  match dict_get sym_id symbols with
  | None => symbols
  | Some sym =>
      if truthy (Sym.extends sym) then
        match Sym.extends sym with
        | Some ext =>
            match dict_get ext symbols with
            | Some base => dict_set sym_id (inherit base sym) symbols
            | None => symbols
            end
        | None => symbols
        end
      else symbols
  end.

(** One pass over [symbols.items()], the entries updated in place. *)
Definition resolve_inheritance (symbols : index) : index :=
  fold_left resolve_step (keys symbols) symbols.

(** ** The merge loop of [main] *)

(** [all_symbols.update(parse_kicad_sym(content))] for each file content. *)
Fixpoint merge_files (contents : list str) (all_symbols : index)
  : option index :=
  match contents with
  | [] => Some all_symbols
  | content :: cs =>
      symbols <- parse_kicad_sym content ;;
      merge_files cs (dict_update all_symbols symbols)
  end.

(** The index written by [main] for the contents of the files read. *)
Definition main (contents : list str) : option index :=
  all_symbols <- merge_files contents [] ;;
  Some (resolve_inheritance all_symbols).

(** ** File enumeration: [find_sym_files] *)

Definition SYMBOLS_DIR : str := s_ "../symbols".

Definition ALLOWED_DIRS : list str :=
  map s_ ["4xxx"; "74xx"; "Connector"; "Device"; "Diode"; "LED";
          "MCU_ATmega"; "MCU_STM32F1"; "Memory_EEPROM"; "OpAmp"; "Oscillator";
          "Power"; "Regulator_Linear"; "Regulator_Switching"; "Relay";
          "Sensor_Motion"; "Sensor_Optical"; "Sensor_Temperature";
          "Switch"; "Timer"; "Transistor_BJT"; "Transistor_FET"]%string.

Definition kicad_ext : str := s_ ".kicad_sym".

(** [s.endswith(suffix)] *)
Definition endswith (suffix s : str) : bool :=
  (length suffix <=? length s)
  && if str_eq_dec (skipn (length s - length suffix) s) suffix
     then true else false.

(** [s.replace(old, new)] for a non-empty [old]: the occurrences of [old]
    are replaced from left to right, without overlap.  [skip] counts the
    characters of the occurrence just replaced that are still to be passed
    over. *)
Fixpoint replace_from (old new s : str) (skip : nat) : str :=
  match s with
  | [] => []
  | c :: s' =>
      match skip with
      | S n => replace_from old new s' n
      | O =>
          if startswith old s
          then new ++ replace_from old new s' (length old - 1)
          else c :: replace_from old new s' 0
      end
  end.

Definition str_replace (old new s : str) : str := replace_from old new s 0.

(** [os.path.join(a, p)] of [posixpath]. *)
Definition path_join (a p : str) : str :=
  if startswith (s_ "/") p then p
  else if match a with [] => true | _ :: _ => endswith (s_ "/") a end
       then a ++ p
       else a ++ s_ "/" ++ p.

(** [category in ALLOWED_DIRS] *)
Definition is_allowed (category : str) : bool :=
  if in_dec str_eq_dec category ALLOWED_DIRS then true else false.

(** [find_sym_files(base_dir)], given what [os.listdir(base_dir)] returns;
    [None] stands for a listing that raises, which the [except] clause
    answers with the files collected so far, none.  The calls of [print] are
    left out. *)
Definition find_sym_files (listing : option (list str)) (base_dir : str)
  : list str :=
  match listing with
  | None => []
  | Some files =>
      fold_left
        (fun sym_files f =>
           if endswith kicad_ext f then
             let category := str_replace kicad_ext [] f in
             if is_allowed category
             then sym_files ++ [path_join base_dir f]
             else sym_files
           else sym_files)
        files []
  end.

(** ** Vocabulary of the statements *)

(** Whether the inner [while] loop, started like [block_end], leaves by
    [break]: the depth returns to 0 before the end of the text. *)
Fixpoint closes (s : str) (depth : Z) : bool :=
  match s with
  | [] => false
  | c :: s' =>
      if Ascii.eqb c "(" then closes s' (depth + 1)
      else if Ascii.eqb c ")" then
        if (depth - 1 =? 0)%Z then true else closes s' (depth - 1)
      else closes s' depth
  end.

(** The blocks [content[start:i]] the outer loop cuts, in order. *)
Equations? blocks (rest : str) : list str by wf (length rest) lt :=
  blocks [] := [];
  blocks (c :: r) with startswith symbol_marker (c :: r) => {
    | true =>
        let n := block_end (c :: r) 0 in
        firstn n (c :: r) :: blocks (skipn n (c :: r))
    | false => blocks r }.
Proof.
  all: rewrite length_skipn; subst n;
    repeat destruct (_ =? _)%char; simpl; lia.
Qed.

(** What the outer loop does with one block. *)
Definition add_block (symbols : option index) (block : str) : option index :=
  d <- symbols ;;
  match symbol_id_of block with
  | None => Some d
  | Some symbol_id =>
      e <- parse_symbol_block symbol_id block ;;
      Some (dict_set symbol_id e d)
  end.

Definition count_char (c : ascii) (s : str) : nat :=
  length (filter (Ascii.eqb c) s).

(** As many opening as closing parentheses. *)
Definition balanced (s : str) : Prop :=
  count_char "(" s = count_char ")" s.

(** The entry the loop body of [resolve_inheritance] leaves for [sym] when it
    reads the index [symbols]. *)
Definition resolve_entry (symbols : index) (sym : Sym.t) : Sym.t :=
  if truthy (Sym.extends sym) then
    match Sym.extends sym with
    | Some ext =>
        match dict_get ext symbols with
        | Some base => inherit base sym
        | None => sym
        end
    | None => sym
    end
  else sym.

(** The pass of [resolve_inheritance] over the items [todo], between the
    items [done] already visited and the items [rest]: the visited items. *)
Fixpoint visit (done todo rest : index) : index :=
  match todo with
  | [] => done
  | (k, e) :: todo' =>
      visit (done ++ [(k, resolve_entry (done ++ todo ++ rest) e)]) todo' rest
  end.

(** An entry that no visit can change: it has no base in the index, or it
    has pins and a bounding box already. *)
Definition needs_nothing (symbols : index) (e : Sym.t) : bool :=
  match Sym.extends e with
  | Some ext =>
      negb (truthy (Sym.extends e) && dict_mem ext symbols)
      || (match Sym.pins e with [] => false | _ :: _ => true end
          && match Sym.bbox e with None => false | Some _ => true end)
  | None => true
  end.

(** Every entry of [todo] whose base comes later in the index has a base
    that needs nothing. *)
Fixpoint late_bases_ready (symbols todo : index) : bool :=
  match todo with
  | [] => true
  | (k, e) :: todo' =>
      match Sym.extends e with
      | Some ext =>
          match dict_get ext todo' with
          | Some base => needs_nothing symbols base
          | None => true
          end
      | None => true
      end && late_bases_ready symbols todo'
  end.

(** [math.isnan(f)] *)
Definition is_nan (f : float) : bool :=
  match f with
  | S754_nan => true
  | _ => false
  end.

(** The invariant of a bounding box. *)
Definition bbox_ok (b : BBox.t) : Prop :=
  fle (BBox.minX b) (BBox.maxX b) = true /\
  fle (BBox.minY b) (BBox.maxY b) = true.

(** Every bounding box of the index has the invariant. *)
Definition entries_ok (d : index) : Prop :=
  forall k e b, In (k, e) d -> Sym.bbox e = Some b -> bbox_ok b.

(** Whether [x] occurs in [l] before any occurrence of [y]. *)
Fixpoint before (x y : str) (l : list str) : bool :=
  match l with
  | [] => false
  | h :: t =>
      if str_eq_dec h x then true
      else if str_eq_dec h y then false
      else before x y t
  end.

(** [m] is the smaller of [a] and [b]; [m] is the larger of them. *)
Definition is_min (a b m : float) : Prop :=
  fle m a = true /\ fle m b = true /\ (m = a \/ m = b).

Definition is_max (a b m : float) : Prop :=
  fle a m = true /\ fle b m = true /\ (m = a \/ m = b).



(** What a pin holds of the position text of its declaration: [x] is the
    number read from the first coordinate, [y] the opposite of the number
    read from the second. *)
Definition pin_at (m : groups) (p : Pin.t) : Prop :=
  exists vx vy,
    float_of_string (group_text 2 m) = Some vx /\
    float_of_string (group_text 3 m) = Some vy /\
    Pin.x p = vx /\ Pin.y p = fneg vy.

(** Every entry is stored under its own identifier. *)
Definition keyed_by_id (d : index) : Prop :=
  forall k e, In (k, e) d -> Sym.id e = k.

(** The running envelope of the polyline loop is the initial one, or it
    encloses a point. *)
Definition envelope_ok (e : envelope) : Prop :=
  e = envelope0 \/
  (let '(lx, hx, ly, hy) := e in fle lx hx = true /\ fle ly hy = true).

(** Both coordinates of a point are numbers. *)
Definition point_ok (p : float * float) : Prop :=
  is_nan (fst p) = false /\ is_nan (snd p) = false.

(** The greedy run of a class ends at [rest]: at the end of the text or
    at a character outside the class. *)
Definition stops (p : ascii -> bool) (rest : str) : Prop :=
  match rest with
  | [] => True
  | c :: _ => p c = false
  end.

(** A non-empty text of the class [[-\d.]]. *)
Definition numeral (t : str) : Prop :=
  t <> [] /\ Forall (fun c => is_num c = true) t.

(** Patterns that can only match at an opening parenthesis. *)
Definition opens (r : regex) : Prop :=
  forall c s, c <> "("%char -> re_match r (c :: s) = None.

(** ** Example inputs *)

(** The number a numeral reads as. *)
Definition f_of (s : string) : float :=
  match float_of_string (s_ s) with
  | Some f => f
  | None => S754_nan
  end.

(** The pin declared at [(at 0 5)]. *)
Definition pin1 : Pin.t :=
  Pin.mk (s_ "passive") (f_of "0") (fneg (f_of "5")) (PyInt 0)
         (s_ "1") (s_ "1").

(** A chain of three entries: [A] extends [B], [B] extends [C], and only
    [C] has pins. *)
Definition symA : Sym.t := Sym.mk (s_ "A") [] None (Some (s_ "B")) [].
Definition symB : Sym.t := Sym.mk (s_ "B") [] None (Some (s_ "C")) [].
Definition symC : Sym.t := Sym.mk (s_ "C") [pin1] None None [].

Definition chain_base_first : index :=
  [(s_ "C", symC); (s_ "B", symB); (s_ "A", symA)].

Definition chain_base_last : index :=
  [(s_ "A", symA); (s_ "B", symB); (s_ "C", symC)].

(** A text cut short inside a block: the closing parenthesis of the
    [(symbol] group is missing. *)
Definition unterminated : str :=
  s_ "(symbol " ++ quoted "X" ++ s_ " (extends " ++ quoted "Y" ++ s_ ")".

Definition unterminated_entry : Sym.t :=
  Sym.mk (s_ "X") [] None (Some (s_ "Y")) unterminated.

(** Two library files that both define [X], and a file that defines it
    twice. *)
Definition file1 : str :=
  s_ "(kicad_symbol_lib (symbol " ++ quoted "X" ++ s_ " (extends "
     ++ quoted "A" ++ s_ ")))".

Definition file2 : str :=
  s_ "(kicad_symbol_lib (symbol " ++ quoted "X" ++ s_ " (extends "
     ++ quoted "B" ++ s_ ")))".

Definition block_X (base : string) : str :=
  s_ "(symbol " ++ quoted "X" ++ s_ " (extends " ++ quoted base ++ s_ "))".

Definition entry_X (base : string) : Sym.t :=
  Sym.mk (s_ "X") [] None (Some (s_ base)) (block_X base).

Definition file_twice : str :=
  s_ "(kicad_symbol_lib " ++ block_X "A" ++ s_ " " ++ block_X "B" ++ s_ ")".

(** A block with one pin, at [(0, 5)]. *)
Definition block_R : str :=
  s_ "(symbol " ++ quoted "R" ++ s_ " (extends " ++ quoted "R_base"
     ++ s_ ") (pin passive line (at 0 5) (name " ++ quoted "1"
     ++ s_ ") (number " ++ quoted "1" ++ s_ ")))".

(** A block whose only geometry is a polyline. *)
Definition block_P : str :=
  s_ "(symbol " ++ quoted "P"
     ++ s_ " (polyline (pts (xy 2 7) (xy -1 3) (xy 0 -4))))".

(** A pin declaration at the position [(X, Y)], up to the closing quote of
    its number, and a block that holds it. *)
Definition pin_text (X Y : str) : str :=
  s_ "(pin" ++ s_ " " ++ s_ "passive" ++ s_ " " ++ s_ "line" ++ s_ " "
     ++ s_ "(at" ++ s_ " " ++ X ++ s_ " " ++ Y ++ s_ ") (name "
     ++ quoted "1" ++ s_ ") (number " ++ quoted "1".

Definition pin_block (X Y : str) : str :=
  s_ "(symbol " ++ quoted "R" ++ s_ " " ++ pin_text X Y ++ s_ ")))".

(** A rectangle with the corners [(X1, Y1)] and [(X2, Y2)], and a block that
    holds it after a polyline. *)
Definition rect_text (X1 Y1 X2 Y2 : str) : str :=
  s_ "(rectangle" ++ s_ " " ++ s_ "(start" ++ s_ " " ++ X1 ++ s_ " " ++ Y1
     ++ s_ ")" ++ s_ " " ++ s_ "(end" ++ s_ " " ++ X2 ++ s_ " " ++ Y2
     ++ s_ ")))".

Definition rect_block (X1 Y1 X2 Y2 : str) : str :=
  s_ "(symbol " ++ quoted "Q"
     ++ s_ " (polyline (pts (xy -9 -9) (xy 9 9))) "
     ++ rect_text X1 Y1 X2 Y2.

(** The block whose rectangle is given from the upper right corner to the
    lower left one. *)
Definition block_Q : str :=
  rect_block (s_ "1") (s_ "2") (s_ "-3") (s_ "-4").

(** ** Vocabulary of the further statements *)

(** A text without opening parenthesis. *)
Definition no_open (t : str) : Prop := Forall (fun c => c <> "("%char) t.

(** A text that is exactly one block: it starts with the marker and the
    inner loop leaves by [break] at its last character. *)
Definition complete (b : str) : Prop :=
  startswith symbol_marker b = true /\
  closes b 0 = true /\ block_end b 0 = length b.

(** [pat in s] *)
Fixpoint contains (pat s : str) : bool :=
  startswith pat s
  || match s with
     | [] => false
     | _ :: s' => contains pat s'
     end.

(** The entry under [x] after one more table has been merged. *)
Definition pick (x : str) (acc : option Sym.t) (table : index)
  : option Sym.t :=
  match dict_get x table with
  | Some e => Some e
  | None => acc
  end.

Unset Implicit Arguments.

(** What follows the first [(at] of a pin declared at [(X, Y)], and a
    block whose pin has one token only, the electrical type, in front of
    its position. *)
Definition bare_tail (X Y : str) : str :=
  X ++ s_ " " ++ Y ++ s_ ") (name " ++ quoted "1" ++ s_ ") (number "
    ++ quoted "1" ++ s_ ")))".

Definition bare_pin_block (X Y : str) : str :=
  s_ "(symbol " ++ quoted "R" ++ s_ " "
     ++ s_ "(pin" ++ s_ " " ++ s_ "passive" ++ s_ " " ++ s_ "(at" ++ s_ " "
     ++ bare_tail X Y.

(** What resolution may change of an entry [e] to give [e']: the
    identifier, the base and the raw text stay, and so do pins and a
    bounding box that are there. *)
Definition kept (e e' : Sym.t) : Prop :=
  Sym.id e' = Sym.id e /\ Sym.extends e' = Sym.extends e /\
  Sym.kicad_sym_raw e' = Sym.kicad_sym_raw e /\
  (Sym.pins e <> [] -> Sym.pins e' = Sym.pins e) /\
  (Sym.bbox e <> None -> Sym.bbox e' = Sym.bbox e).

(** The condition under which [find_sym_files] takes the file name [f]. *)
Definition selected (f : str) : bool :=
  endswith kicad_ext f && is_allowed (str_replace kicad_ext [] f).

(** A text without the point that starts the extension. *)
Definition no_dot (t : str) : Prop := Forall (fun c => c <> "."%char) t.

(** A token of a declaration: not empty, without white space and without
    opening parenthesis; a quoted text: not empty, without double quote and
    without opening parenthesis. *)
Definition token (t : str) : Prop :=
  t <> [] /\ Forall (fun c => non_space c = true) t /\ no_open t.

Definition quotable (t : str) : Prop :=
  t <> [] /\ Forall (fun c => non_quote c = true) t /\ no_open t.

(** A pin declaration with the electrical type [T], the position [(X, Y)],
    the angle [A], the name [N] and the number [M], and a block that holds
    it. *)
Definition pin_full_text (T X Y A N M : str) : str :=
  s_ "(pin" ++ s_ " " ++ T ++ s_ " " ++ s_ "line" ++ s_ " " ++ s_ "(at"
     ++ s_ " " ++ X ++ s_ " " ++ Y ++ s_ " " ++ A ++ s_ ")" ++ s_ " "
     ++ s_ "(name" ++ s_ " " ++ [dq] ++ N ++ [dq] ++ s_ ")" ++ s_ " "
     ++ s_ "(number" ++ s_ " " ++ [dq] ++ M ++ [dq].

Definition pin_full_block (T X Y A N M : str) : str :=
  s_ "(symbol " ++ quoted "R" ++ s_ " " ++ pin_full_text T X Y A N M
     ++ s_ ")))".

(** Positions of [body], in front of [rest], at which the continuation [k]
    fails whatever the groups. *)
Fixpoint fails_within (R : Type) (k : str -> groups -> option R)
         (body rest : str) : Prop :=
  match body with
  | [] => True
  | c :: b =>
      (forall g, k (c :: b ++ rest) g = None) /\ fails_within R k b rest
  end.

(** Suffixes of [t], in front of [rest], at which [k] fails. *)
Fixpoint fails_after (R : Type) (k : str -> groups -> option R)
         (t rest : str) : Prop :=
  (forall g, k (t ++ rest) g = None) /\
  match t with
  | [] => True
  | _ :: t' => fails_after R k t' rest
  end.




(** The part a character plays in the inner loop of [parse_kicad_sym]: it
    opens, it closes, or it is neither. *)
Definition paren_class (c : ascii) : nat :=
  if Ascii.eqb c "(" then 1 else if Ascii.eqb c ")" then 2 else 0.

(** A run of white space. *)
Definition blank (w : str) : Prop :=
  w <> [] /\ Forall (fun c => is_space c = true) w.

(** A block that names the base [B] and holds nothing else. *)
Definition extends_block (B : str) : str :=
  s_ "(symbol " ++ quoted "R" ++ s_ " "
     ++ (s_ "(extends" ++ s_ " " ++ [dq] ++ B ++ [dq] ++ s_ ")") ++ s_ ")".



(** ** Pin declarations *)

(** The pin pattern can only match where [(pin] and a white-space character
    stand; [pin_gap t] says that this happens nowhere in [t]. *)
Definition pin_head (t : str) : bool :=
  startswith (s_ "(pin") t
  && match skipn 4 t with
     | c :: _ => is_space c
     | [] => false
     end.

Fixpoint has_pin_head (t : str) : bool :=
  pin_head t
  || match t with
     | [] => false
     | _ :: t' => has_pin_head t'
     end.

Definition pin_gap (t : str) : Prop := has_pin_head t = false.

(** The text [t] holds no occurrence of [l]. *)
Definition free (l t : str) : Prop := contains l t = false.

(** A word: not empty, without white space; the text between two double
    quotes: not empty, without double quote. *)
Definition word (t : str) : Prop :=
  t <> [] /\ Forall (fun c => non_space c = true) t.

Definition in_quotes (t : str) : Prop :=
  t <> [] /\ Forall (fun c => non_quote c = true) t.

(** A pin declaration with two words in front of its position: the
    electrical type and the graphic style, the position with or without an
    angle, the name and the number, and whatever stands before the name and
    before the number. *)
Record decl : Type := Decl {
  d_type : str;
  d_style : str;
  d_x : str;
  d_y : str;
  d_angle : option str;
  d_mid1 : str;
  d_name : str;
  d_mid2 : str;
  d_number : str
}.

Definition angle_text (a : option str) : str :=
  match a with
  | Some t => s_ " " ++ t
  | None => []
  end.

(** The declaration as it is written, up to the closing quote of the
    number. *)
Definition decl_text (d : decl) : str :=
  s_ "(pin" ++ s_ " " ++ d_type d ++ s_ " " ++ d_style d ++ s_ " "
     ++ s_ "(at" ++ s_ " " ++ d_x d ++ s_ " " ++ d_y d
     ++ angle_text (d_angle d) ++ s_ ")"
     ++ d_mid1 d ++ s_ "(name" ++ s_ " " ++ [dq] ++ d_name d ++ [dq]
     ++ s_ ")"
     ++ d_mid2 d ++ s_ "(number" ++ s_ " " ++ [dq] ++ d_number d ++ [dq].

Definition well_formed (d : decl) : Prop :=
  word (d_type d) /\ word (d_style d) /\
  numeral (d_x d) /\ numeral (d_y d) /\
  match d_angle d with Some a => numeral a | None => True end /\
  free (s_ "(name") (d_mid1 d) /\ in_quotes (d_name d) /\
  free (s_ "(number") (d_mid2 d) /\ in_quotes (d_number d).

(** Every number of the declaration is one that [float] accepts. *)
Definition converts (d : decl) : Prop :=
  float_of_string (d_x d) <> None /\ float_of_string (d_y d) <> None /\
  match d_angle d with
  | Some a => float_of_string a <> None
  | None => True
  end.

(** Declarations, each followed by the text up to the next one. *)
Fixpoint pins_text (ds : list (decl * str)) : str :=
  match ds with
  | [] => []
  | (d, gap) :: ds' => decl_text d ++ gap ++ pins_text ds'
  end.

(** The pin [p] is the one declared by [d]: it has the type, the name and
    the number of [d], its [x] is the number [d] gives and its [y] is the
    opposite of the number [d] gives. *)
Definition reads (d : decl) (p : Pin.t) : Prop :=
  exists vx vy,
    float_of_string (d_x d) = Some vx /\
    float_of_string (d_y d) = Some vy /\
    Pin.x p = vx /\ Pin.y p = SFopp vy /\
    Pin.electrical_type p = d_type d /\
    Pin.name p = d_name d /\ Pin.number p = d_number d.

(** The groups of the match of a declaration. *)
Definition groups_of (d : decl) : groups :=
  match d_angle d with
  | Some a =>
      [(6, d_number d); (5, d_name d); (4, a); (3, d_y d); (2, d_x d);
       (1, d_type d)]
  | None =>
      [(6, d_number d); (5, d_name d); (3, d_y d); (2, d_x d);
       (1, d_type d)]
  end.

(** A block with two declarations, the second with an angle and a length
    before its name. *)
Definition decl_1 : decl :=
  Decl (s_ "passive") (s_ "line") (s_ "0") (s_ "5") None
       (s_ " ") (s_ "1") (s_ " ") (s_ "1").

Definition decl_2 : decl :=
  Decl (s_ "input") (s_ "inverted") (s_ "1.5") (s_ "-2.5") (Some (s_ "90"))
       (s_ " (length 2.54) ") (s_ "A") (s_ " ") (s_ "2").

Definition two_pins : list (decl * str) :=
  [(decl_1, s_ ")) "); (decl_2, s_ ")))")].

Definition two_pins_head : str :=
  s_ "(symbol " ++ quoted "R" ++ s_ " (pin_names hide) ".

Definition two_pins_block : str := two_pins_head ++ pins_text two_pins.

(** A declaration with the electrical type alone in front of its position,
    followed by one with two words. *)
Definition one_word_then_two : str :=
  s_ "(symbol " ++ quoted "R" ++ s_ " (pin passive (at 0 5) (name "
     ++ quoted "1" ++ s_ ") (number " ++ quoted "1"
     ++ s_ ")) (pin input line (at 1 6) (name " ++ quoted "2"
     ++ s_ ") (number " ++ quoted "2" ++ s_ ")))".

(** ** The run of [main] on a directory *)

(** What [main] meets outside the texts: the listing of [SYMBOLS_DIR]
    ([None] when [os.listdir] raises), what [open] and [read] give for a
    path ([None] when one of them raises, as for a file that cannot be
    opened or is not UTF-8), and whether the output file can be opened and
    written.  The console is taken to accept every message. *)
Record world : Type := World {
  listing : option (list str);
  read_text : str -> option str;
  writable : bool
}.

(** The loop of [main] over the files found: each file is read, parsed and
    merged before the next is opened. *)
Fixpoint read_files (read : str -> option str) (files : list str)
         (all_symbols : index) : option index :=
  match files with
  | [] => Some all_symbols
  | f :: fs =>
      content <- read f ;;
      symbols <- parse_kicad_sym content ;;
      read_files read fs (dict_update all_symbols symbols)
  end.

(** [main()]: the index written to [OUTPUT_JSON], [None] when the run ends
    with an exception.  [main] above is its part on the texts read. *)
Definition main_run (w : world) : option index :=
  let files := find_sym_files (listing w) SYMBOLS_DIR in
  all_symbols <- read_files (read_text w) files [] ;;
  let out := resolve_inheritance all_symbols in
  if writable w then Some out else None.

(** A directory with one library of an allowed category and a file that is
    not a library; only the library can be read. *)
Definition world_1 : world :=
  World (Some [s_ "Device.kicad_sym"; s_ "notes.txt"])
        (fun f => if str_eq_dec f (s_ "../symbols/Device.kicad_sym")
                  then Some file1 else None)
        true.


(** ** Dictionaries: lookup and update *)

Section DictFacts.
Variable V : Type.
Implicit Types (d : dict V) (k : str) (v : V).

Lemma dict_get_app k d1 d2 :
  dict_get k (d1 ++ d2) =
  match dict_get k d1 with
  | Some v => Some v
  | None => dict_get k d2
  end.
Proof.
  induction d1 as [|[k' v'] d1 IH]; simpl; [reflexivity|].
  destruct (str_eq_dec k k'); auto.
Qed.

Lemma dict_get_None k d : dict_get k d = None <-> ~ In k (keys d).
Proof.
  induction d as [|[k' v'] d IH]; simpl.
  - tauto.
  - destruct (str_eq_dec k k') as [->|Hne].
    + split; [discriminate|]. intros H; exfalso; apply H; auto.
    + rewrite IH. split; intros H; [intros [E|I]|]; try tauto.
      congruence.
Qed.

Lemma dict_get_In k v d : dict_get k d = Some v -> In (k, v) d.
Proof.
  induction d as [|[k' v'] d IH]; simpl; [discriminate|].
  destruct (str_eq_dec k k') as [->|Hne].
  - intros [= ->]; auto.
  - auto.
Qed.

Lemma In_keys k v d : In (k, v) d -> In k (keys d).
Proof. intros H. apply (in_map fst) in H. exact H. Qed.

Lemma In_dict_get k v d :
  NoDup (keys d) -> In (k, v) d -> dict_get k d = Some v.
Proof.
  induction d as [|[k' v'] d IH]; simpl; [tauto|].
  intros Hnd [E|I].
  - inversion E; subst. destruct (str_eq_dec k k); congruence.
  - inversion Hnd as [|? ? Hni Hnd']; subst.
    destruct (str_eq_dec k k') as [->|Hne].
    + exfalso. apply Hni. eapply In_keys; eauto.
    + auto.
Qed.

Lemma dict_get_mid k v d1 d2 :
  ~ In k (keys d1) -> dict_get k (d1 ++ (k, v) :: d2) = Some v.
Proof.
  intros H. rewrite dict_get_app.
  apply dict_get_None in H. rewrite H. simpl.
  destruct (str_eq_dec k k); congruence.
Qed.

Lemma keys_app d1 d2 : keys (d1 ++ d2) = keys d1 ++ keys d2.
Proof. apply map_app. Qed.

Lemma keys_dict_set_in k v d :
  In k (keys d) -> keys (dict_set k v d) = keys d.
Proof.
  induction d as [|[k' v'] d IH]; simpl; [tauto|].
  intros H. destruct (str_eq_dec k k') as [->|Hne]; simpl; [reflexivity|].
  f_equal. apply IH. destruct H; congruence.
Qed.

Lemma keys_dict_set k v d :
  keys (dict_set k v d) = keys d \/ keys (dict_set k v d) = keys d ++ [k].
Proof.
  induction d as [|[k' v'] d IH]; simpl; [auto|].
  destruct (str_eq_dec k k'); simpl; [auto|].
  destruct IH as [-> | ->]; auto.
Qed.

Lemma dict_get_set_same k v d : dict_get k (dict_set k v d) = Some v.
Proof.
  induction d as [|[k' v'] d IH]; simpl.
  - destruct (str_eq_dec k k); congruence.
  - destruct (str_eq_dec k k') as [->|Hne]; simpl.
    + destruct (str_eq_dec k' k'); congruence.
    + destruct (str_eq_dec k k'); congruence.
Qed.

Lemma dict_get_set_other k k' v d :
  k <> k' -> dict_get k (dict_set k' v d) = dict_get k d.
Proof.
  intros Hne. induction d as [|[k2 v2] d IH]; simpl.
  - destruct (str_eq_dec k k'); congruence.
  - destruct (str_eq_dec k' k2) as [->|Hne2]; simpl.
    + destruct (str_eq_dec k k2); congruence.
    + destruct (str_eq_dec k k2); congruence.
Qed.

Lemma dict_set_id k v d : dict_get k d = Some v -> dict_set k v d = d.
Proof.
  induction d as [|[k' v'] d IH]; simpl; [discriminate|].
  destruct (str_eq_dec k k') as [->|Hne].
  - intros [= ->]; reflexivity.
  - intros H. f_equal. auto.
Qed.

Lemma dict_set_mid k v v' d1 d2 :
  ~ In k (keys d1) ->
  dict_set k v' (d1 ++ (k, v) :: d2) = d1 ++ (k, v') :: d2.
Proof.
  induction d1 as [|[k1 v1] d1 IH]; simpl; intros H.
  - destruct (str_eq_dec k k); congruence.
  - destruct (str_eq_dec k k1) as [->|Hne]; [tauto|].
    f_equal. apply IH. tauto.
Qed.

Lemma NoDup_dict_set k v d : NoDup (keys d) -> NoDup (keys (dict_set k v d)).
Proof.
  induction d as [|[k' v'] d IH]; simpl; intros H.
  - constructor; [simpl; tauto | constructor].
  - inversion H as [|? ? Hni Hnd]; subst.
    destruct (str_eq_dec k k') as [->|Hne]; simpl.
    + constructor; assumption.
    + constructor; [|auto].
      destruct (keys_dict_set k v d) as [-> | ->]; [assumption|].
      rewrite in_app_iff. simpl. intros [?|[?|[]]]; congruence.
Qed.

Lemma split_at_key k d :
  In k (keys d) ->
  exists d1 v d2, d = d1 ++ (k, v) :: d2 /\ ~ In k (keys d1).
Proof.
  induction d as [|[k' v'] d IH]; simpl; [tauto|].
  intros H. destruct (str_eq_dec k k') as [->|Hne].
  - exists [], v', d. simpl. tauto.
  - destruct IH as (d1 & v & d2 & -> & Hni); [destruct H; congruence|].
    exists ((k', v') :: d1), v, d2. simpl. split; [reflexivity|].
    intros [?|?]; [congruence|tauto].
Qed.
End DictFacts.

(** ** The resolution pass, visit by visit *)

Lemma resolve_step_entry (d : index) (k : str) :
  resolve_step d k =
  match dict_get k d with
  | Some sym => dict_set k (resolve_entry d sym) d
  | None => d
  end.
Proof.
  unfold resolve_step, resolve_entry.
  destruct (dict_get k d) as [sym|] eqn:Hk; [|reflexivity].
  destruct (truthy (Sym.extends sym));
    [|symmetry; apply dict_set_id; assumption].
  destruct (Sym.extends sym) as [ext|];
    [|symmetry; apply dict_set_id; assumption].
  destruct (dict_get ext d);
    [reflexivity | symmetry; apply dict_set_id; assumption].
Qed.

Lemma keys_resolve_step (d : index) (k : str) :
  keys (resolve_step d k) = keys d.
Proof.
  rewrite resolve_step_entry.
  destruct (dict_get k d) eqn:Hk; [|reflexivity].
  apply keys_dict_set_in. apply dict_get_In in Hk.
  eapply In_keys; eauto.
Qed.

Lemma keys_fold_resolve (l : list str) (d : index) :
  keys (fold_left resolve_step l d) = keys d.
Proof.
  revert d; induction l as [|k l IH]; intros d; simpl; [reflexivity|].
  rewrite IH. apply keys_resolve_step.
Qed.

Lemma keys_resolve (d : index) : keys (resolve_inheritance d) = keys d.
Proof. apply keys_fold_resolve. Qed.

Lemma keys_visit (done todo rest : index) :
  keys (visit done todo rest) = keys done ++ keys todo.
Proof.
  revert done; induction todo as [|[k e] todo IH]; intros done; simpl.
  - rewrite app_nil_r. reflexivity.
  - rewrite IH, keys_app. simpl. rewrite <- app_assoc. reflexivity.
Qed.

Lemma visit_extends (done todo rest : index) :
  exists tail, visit done todo rest = done ++ tail /\ keys tail = keys todo.
Proof.
  revert done; induction todo as [|[k e] todo IH]; intros done; simpl.
  - exists []. rewrite app_nil_r. auto.
  - destruct (IH (done ++ [(k, resolve_entry (done ++ (k, e) :: todo ++ rest) e)]))
      as (tail & -> & Hk).
    eexists (_ :: tail). rewrite <- app_assoc. simpl. split; [reflexivity|].
    simpl. congruence.
Qed.

Lemma visit_app (done t1 t2 rest : index) :
  visit done (t1 ++ t2) rest = visit (visit done t1 (t2 ++ rest)) t2 rest.
Proof.
  revert done; induction t1 as [|[k e] t1 IH]; intros done; simpl.
  - reflexivity.
  - rewrite IH. rewrite <- !app_assoc. reflexivity.
Qed.

(** The loop of [resolve_inheritance] is the pass [visit]. *)
Lemma fold_resolve_visit (todo done rest : index) :
  NoDup (keys (done ++ todo ++ rest)) ->
  fold_left resolve_step (keys todo) (done ++ todo ++ rest) =
  visit done todo rest ++ rest.
Proof.
  revert done; induction todo as [|[k e] todo IH]; intros done Hnd; simpl.
  - reflexivity.
  - assert (Hni : ~ In k (keys done)).
    { rewrite keys_app in Hnd. simpl in Hnd.
      apply NoDup_remove_2 in Hnd. rewrite in_app_iff in Hnd. tauto. }
    rewrite resolve_step_entry.
    rewrite (@dict_get_mid _ k e done (todo ++ rest) Hni).
    rewrite (@dict_set_mid _ k e _ done (todo ++ rest) Hni).
    change (done ++ (k, resolve_entry (done ++ (k, e) :: todo ++ rest) e)
                 :: todo ++ rest)
      with (done ++ [(k, resolve_entry (done ++ (k, e) :: todo ++ rest) e)]
                 ++ todo ++ rest).
    rewrite app_assoc. apply IH.
    rewrite <- app_assoc. simpl.
    rewrite keys_app in *. simpl in *. exact Hnd.
Qed.

Lemma resolve_visit (d : index) :
  NoDup (keys d) -> resolve_inheritance d = visit [] d [].
Proof.
  intros Hnd. unfold resolve_inheritance.
  pose proof (@fold_resolve_visit d [] []) as H.
  simpl in H. rewrite !app_nil_r in H. apply H. exact Hnd.
Qed.

(** The entry of [k] after the pass: the loop body applied to the entry at
    the moment of its visit, when the items before it have been visited
    and the items after it have not. *)
Lemma resolve_at (d1 d2 : index) (k : str) (e : Sym.t) :
  NoDup (keys (d1 ++ (k, e) :: d2)) ->
  exists p1 p2,
    keys p1 = keys d1 /\ keys p2 = keys d2 /\
    p1 = visit [] d1 ((k, e) :: d2) /\
    resolve_inheritance (d1 ++ (k, e) :: d2) =
    p1 ++ (k, resolve_entry (p1 ++ (k, e) :: d2) e) :: p2.
Proof.
  intros Hnd. rewrite resolve_visit by exact Hnd.
  rewrite visit_app. simpl. rewrite !app_nil_r.
  set (p1 := visit [] d1 ((k, e) :: d2)).
  destruct (visit_extends (p1 ++ [(k, resolve_entry (p1 ++ (k, e) :: d2) e)])
                          d2 []) as (p2 & -> & Hk2).
  exists p1, p2. repeat split.
  - unfold p1. rewrite keys_visit. reflexivity.
  - exact Hk2.
  - rewrite <- app_assoc. reflexivity.
Qed.

Lemma extends_inherit (base e : Sym.t) :
  Sym.extends (inherit base e) = Sym.extends e.
Proof.
  unfold inherit. destruct e as [i ps b x r]; simpl.
  destruct ps; simpl; destruct b; reflexivity.
Qed.

Lemma extends_resolve_entry (d : index) (e : Sym.t) :
  Sym.extends (resolve_entry d e) = Sym.extends e.
Proof.
  unfold resolve_entry. destruct (truthy (Sym.extends e)); [|reflexivity].
  destruct (Sym.extends e) eqn:E; [|assumption].
  destruct (dict_get s d); [|assumption].
  rewrite extends_inherit. assumption.
Qed.

Lemma inherit_idem (base e : Sym.t) :
  inherit base (inherit base e) = inherit base e.
Proof.
  unfold inherit. destruct e as [i ps b x r], base as [i' ps' b' x' r'].
  simpl. destruct ps, b, ps', b'; reflexivity.
Qed.

Lemma inherit_self (e : Sym.t) : inherit e e = e.
Proof.
  unfold inherit. destruct e as [i ps b x r]; simpl.
  destruct ps, b; reflexivity.
Qed.

Lemma pins_inherit_empty (base e : Sym.t) :
  Sym.pins e = [] -> Sym.pins (inherit base e) = Sym.pins base.
Proof.
  unfold inherit. destruct e as [i ps b x r]; simpl.
  intros ->. simpl. destruct b; reflexivity.
Qed.

Lemma dict_get_same_keys (d d' : index) (k : str) :
  keys d = keys d' -> dict_get k d = None -> dict_get k d' = None.
Proof.
  intros Hk H. apply dict_get_None. rewrite <- Hk.
  apply dict_get_None. exact H.
Qed.

(** An entry that needs nothing is left as it is by the loop body, whatever
    the entries of the index hold. *)
Lemma needs_nothing_fixed (d s : index) (e : Sym.t) :
  keys s = keys d -> needs_nothing d e = true -> resolve_entry s e = e.
Proof.
  intros Hk H. unfold needs_nothing in H. unfold resolve_entry.
  destruct (Sym.extends e) as [b|] eqn:E; [|reflexivity].
  destruct (truthy (Some b)) eqn:T; [|reflexivity].
  simpl in H. unfold dict_mem in H.
  destruct (dict_get b d) eqn:G; simpl in H.
  - destruct (dict_get b s); [|reflexivity].
    unfold inherit. destruct e as [i ps bb x r]; simpl in *.
    destruct ps; [discriminate|]. destruct bb; [reflexivity|discriminate].
  - rewrite (@dict_get_same_keys d s b); auto.
Qed.

Lemma resolve_keeps_ready (d : index) (b : str) (base : Sym.t) :
  NoDup (keys d) -> In (b, base) d -> needs_nothing d base = true ->
  dict_get b (resolve_inheritance d) = Some base.
Proof.
  intros Hnd Hin Hn.
  destruct (@split_at_key _ b d) as (d1 & v & d2 & -> & Hni);
    [eapply In_keys; eauto|].
  assert (v = base) as ->.
  { pose proof (In_dict_get _ _ _ _ Hnd Hin) as G.
    rewrite dict_get_mid in G by exact Hni. congruence. }
  destruct (resolve_at _ _ _ _ Hnd) as (p1 & p2 & K1 & K2 & _ & ->).
  rewrite dict_get_mid by (rewrite K1; exact Hni).
  f_equal. apply needs_nothing_fixed with (d := d1 ++ (b, base) :: d2); auto.
  rewrite !keys_app. simpl. congruence.
Qed.

Lemma late_bases_ready_at (d d1 d2 : index) (k b : str) (e base : Sym.t) :
  late_bases_ready d (d1 ++ (k, e) :: d2) = true ->
  Sym.extends e = Some b -> dict_get b d2 = Some base ->
  needs_nothing d base = true.
Proof.
  induction d1 as [|[k1 e1] d1 IH]; simpl; intros H E G.
  - rewrite E, G in H. apply andb_prop in H. tauto.
  - apply andb_prop in H. destruct H as [_ H]. auto.
Qed.

(** After the pass every entry is a fixed point of the loop body, when the
    bases that come late need nothing. *)
Lemma resolve_settled (d1 d2 : index) (k : str) (e : Sym.t) :
  let d := d1 ++ (k, e) :: d2 in
  NoDup (keys d) -> late_bases_ready d d = true ->
  exists e', dict_get k (resolve_inheritance d) = Some e' /\
             resolve_entry (resolve_inheritance d) e' = e'.
Proof.
  intros d Hnd Hready. unfold d in *.
  assert (Hnd' := Hnd). rewrite keys_app in Hnd'. simpl in Hnd'.
  assert (Hk1 : ~ In k (keys d1)).
  { apply NoDup_remove_2 in Hnd'. rewrite in_app_iff in Hnd'. tauto. }
  destruct (resolve_at _ _ _ _ Hnd) as (p1 & p2 & K1 & K2 & _ & HF).
  set (F := resolve_inheritance (d1 ++ (k, e) :: d2)) in *.
  set (S := p1 ++ (k, e) :: d2) in *.
  assert (KF : keys F = keys S).
  { rewrite HF. unfold S. rewrite !keys_app. simpl. congruence. }
  exists (resolve_entry S e). split.
  { rewrite HF. apply dict_get_mid. rewrite K1. exact Hk1. }
  unfold resolve_entry at 1. rewrite extends_resolve_entry.
  unfold resolve_entry.
  destruct (truthy (Sym.extends e)) eqn:T; [|reflexivity].
  destruct (Sym.extends e) as [b|] eqn:E; [|reflexivity].
  destruct (dict_get b S) as [base|] eqn:GS.
  2:{ rewrite (@dict_get_same_keys S F b); auto. }
  assert (GF : exists base', dict_get b F = Some base' /\
                inherit base' (inherit base e) = inherit base e).
  { unfold S in GS. rewrite dict_get_app in GS.
    destruct (dict_get b p1) as [v|] eqn:G1.
    - (* the base has been visited *)
      exists base. split; [|apply inherit_idem].
      rewrite HF, dict_get_app, G1. exact GS.
    - simpl in GS. destruct (str_eq_dec b k) as [->|Hne].
      + (* the entry extends itself *)
        injection GS as <-. exists (inherit e e). split.
        * rewrite HF. rewrite dict_get_mid by (rewrite K1; exact Hk1).
          f_equal. unfold resolve_entry. rewrite E, T.
          unfold S. rewrite dict_get_mid by (rewrite K1; exact Hk1).
          reflexivity.
        * rewrite !inherit_self. reflexivity.
      + (* the base comes later and needs nothing *)
        exists base. split; [|apply inherit_idem].
        apply resolve_keeps_ready; auto.
        * apply in_or_app. right. right. apply dict_get_In. exact GS.
        * eapply late_bases_ready_at; eauto. }
  destruct GF as (base' & -> & Hi). exact Hi.
Qed.

Lemma fold_resolve_fixed (l : list str) (d : index) :
  (forall k, In k l -> resolve_step d k = d) ->
  fold_left resolve_step l d = d.
Proof.
  induction l as [|k l IH]; simpl; intros H; [reflexivity|].
  rewrite (H k) by auto. apply IH. auto.
Qed.

Lemma before_visited (d1 d2 : index) (a b : str) (e : Sym.t) :
  In b (keys d1) -> ~ In a (keys d1) ->
  before b a (keys (d1 ++ (a, e) :: d2)) = true.
Proof.
  induction d1 as [|[k v] d1 IH]; simpl; [tauto|]. intros Hb Ha.
  destruct (str_eq_dec k b); [reflexivity|].
  destruct (str_eq_dec k a); [tauto|].
  apply IH; tauto.
Qed.

Lemma before_not_visited (d1 d2 : index) (a b : str) (e : Sym.t) :
  ~ In b (keys d1) -> a <> b ->
  before b a (keys (d1 ++ (a, e) :: d2)) = false.
Proof.
  induction d1 as [|[k v] d1 IH]; simpl; intros Hb Hab.
  - destruct (str_eq_dec a b); [congruence|].
    destruct (str_eq_dec a a); congruence.
  - destruct (str_eq_dec k b); [tauto|].
    destruct (str_eq_dec k a); [reflexivity|].
    apply IH; tauto.
Qed.

Ltac solve_nodup :=
  vm_compute;
  repeat (constructor; [simpl; intuition discriminate|]);
  constructor.

(** ** Inheritance resolution: the claims *)

(** C3, as stated, fails: in the index that lists [C], [B], [A] in this
    order, with [A] extending [B], [B] extending [C] and [B] starting without
    pins, the pass gives [A] the pins of [C]. *)
Lemma C3_counterexample :
  dict_get (s_ "A") chain_base_first = Some symA /\
  Sym.extends symA = Some (s_ "B") /\
  dict_get (s_ "B") chain_base_first = Some symB /\
  Sym.pins symB = [] /\
  Sym.extends symB = Some (s_ "C") /\
  dict_get (s_ "C") chain_base_first = Some symC /\
  Sym.pins symC = [pin1] /\
  option_map Sym.pins
    (dict_get (s_ "A") (resolve_inheritance chain_base_first))
  = Some [pin1].
Proof. repeat split. Qed.

(** C3, amended: resolution is one pass in index order with the entries
    updated in place.  An entry [A] without pins whose base [B] is in the
    index takes the pins [B] holds when [A] is visited: the pins [B] started
    with when [A] comes before [B] (so [A] stays without pins when [B]
    started without, and gets nothing of [B]'s own base), and the pins [B]
    has after its own visit when [B] comes before [A]. *)
Theorem C3_pins_of_base_as_visited
  (d : index) (a b : str) (eA eB : Sym.t) :
  NoDup (keys d) ->
  dict_get a d = Some eA -> Sym.pins eA = [] ->
  Sym.extends eA = Some b -> truthy (Some b) = true -> a <> b ->
  dict_get b d = Some eB ->
  exists eA' eB',
    dict_get a (resolve_inheritance d) = Some eA' /\
    dict_get b (resolve_inheritance d) = Some eB' /\
    Sym.pins eA' =
      if before b a (keys d) then Sym.pins eB' else Sym.pins eB.
Proof.
  intros Hnd Ga Hp He Ht Hab Gb.
  destruct (split_at_key _ a d) as (d1 & v & d2 & -> & Hni).
  { eapply In_keys. apply dict_get_In. exact Ga. }
  rewrite dict_get_mid in Ga by exact Hni. injection Ga as ->.
  destruct (resolve_at _ _ _ _ Hnd) as (p1 & p2 & K1 & K2 & _ & HF).
  assert (Hb' : exists eB', dict_get b (resolve_inheritance
                                        (d1 ++ (a, eA) :: d2)) = Some eB').
  { destruct (dict_get b (resolve_inheritance (d1 ++ (a, eA) :: d2)))
      as [x|] eqn:G; [eauto|].
    apply dict_get_None in G. rewrite keys_resolve in G.
    exfalso. apply G. eapply In_keys. apply dict_get_In. exact Gb. }
  destruct Hb' as (eB' & GB').
  exists (resolve_entry (p1 ++ (a, eA) :: d2) eA), eB'.
  split; [|split].
  - rewrite HF. apply dict_get_mid. rewrite K1. exact Hni.
  - exact GB'.
  - unfold resolve_entry. rewrite He, Ht.
    rewrite HF in GB'. rewrite dict_get_app in GB'. rewrite dict_get_app.
    rewrite dict_get_app in Gb.
    destruct (dict_get b p1) as [x|] eqn:G1.
    + injection GB' as ->.
      rewrite before_visited; [apply pins_inherit_empty; exact Hp| |exact Hni].
      rewrite <- K1. eapply In_keys. apply dict_get_In. exact G1.
    + assert (G1' : dict_get b d1 = None).
      { apply (dict_get_same_keys p1 d1); auto. }
      rewrite G1' in Gb. rewrite Gb.
      rewrite before_not_visited;
        [apply pins_inherit_empty; exact Hp| |exact Hab].
      apply dict_get_None. exact G1'.
Qed.

Lemma C3_pins_of_base_as_visited_witness :
  exists eA' eB',
    dict_get (s_ "A") (resolve_inheritance chain_base_last) = Some eA' /\
    dict_get (s_ "B") (resolve_inheritance chain_base_last) = Some eB' /\
    Sym.pins eA' = [].
Proof.
  apply (C3_pins_of_base_as_visited chain_base_last (s_ "A") (s_ "B")
                                    symA symB).
  - solve_nodup.
  - reflexivity.
  - reflexivity.
  - reflexivity.
  - reflexivity.
  - discriminate.
  - reflexivity.
Defined.

(** C4, as stated, fails: on the chain listed [A], [B], [C] the first pass
    gives [B] the pins of [C] after [A] has been visited, and only a second
    pass gives them to [A]. *)
Lemma C4_counterexample :
  resolve_inheritance (resolve_inheritance chain_base_last)
  <> resolve_inheritance chain_base_last.
Proof.
  intros H.
  apply (f_equal (fun d => option_map Sym.pins (dict_get (s_ "A") d))) in H.
  vm_compute in H. discriminate H.
Qed.

(** C4, amended: [resolve_inheritance] is idempotent on every index in
    which each entry's base comes before the entry in the index, is the
    entry itself, or needs nothing from resolution (it has no base in the
    index, or it has pins and a bounding box already). *)
Theorem C4_resolve_idempotent_when_bases_ready (d : index) :
  NoDup (keys d) -> late_bases_ready d d = true ->
  resolve_inheritance (resolve_inheritance d) = resolve_inheritance d.
Proof.
  intros Hnd Hready.
  unfold resolve_inheritance at 1.
  apply fold_resolve_fixed. intros k Hk.
  rewrite keys_resolve in Hk.
  destruct (split_at_key _ k d Hk) as (d1 & e & d2 & -> & _).
  destruct (resolve_settled d1 d2 k e Hnd Hready) as (e' & G & Hfix).
  rewrite resolve_step_entry, G, Hfix.
  apply dict_set_id. exact G.
Qed.

Lemma C4_resolve_idempotent_when_bases_ready_witness :
  resolve_inheritance (resolve_inheritance chain_base_first)
  = resolve_inheritance chain_base_first.
Proof.
  apply (C4_resolve_idempotent_when_bases_ready chain_base_first).
  - solve_nodup.
  - reflexivity.
Defined.

Lemma resolve_step_keeps (d : index) (k k' : str) (e : Sym.t) :
  dict_get k d = Some e ->
  (forall t, Sym.extends e = Some t -> dict_get t d = None) ->
  dict_get k (resolve_step d k') = Some e.
Proof.
  intros G Hext. rewrite resolve_step_entry.
  destruct (dict_get k' d) as [sym|] eqn:G'; [|exact G].
  destruct (str_eq_dec k k') as [<-|Hne].
  - rewrite dict_get_set_same. rewrite G in G'. injection G' as <-.
    f_equal. unfold resolve_entry.
    destruct (truthy (Sym.extends e)); [|reflexivity].
    destruct (Sym.extends e) as [t|]; [|reflexivity].
    rewrite (Hext t eq_refl). reflexivity.
  - rewrite dict_get_set_other by exact Hne. exact G.
Qed.

Lemma fold_resolve_keeps (l : list str) (d : index) (k : str) (e : Sym.t) :
  dict_get k d = Some e ->
  (forall t, Sym.extends e = Some t -> dict_get t d = None) ->
  dict_get k (fold_left resolve_step l d) = Some e.
Proof.
  revert d; induction l as [|k' l IH]; intros d G Hext; simpl; [exact G|].
  apply IH.
  - apply resolve_step_keeps; assumption.
  - intros t Ht. apply (dict_get_same_keys d).
    + symmetry. apply keys_resolve_step.
    + apply Hext. exact Ht.
Qed.

(** C8: an entry whose [extends] names no key of the index is left as it
    is by [resolve_inheritance]; its pin list stays empty and its bounding
    box stays unset when they started so. *)
Theorem C8_missing_base_leaves_entry (d : index) (k t : str) (e : Sym.t) :
  dict_get k d = Some e ->
  Sym.extends e = Some t -> dict_mem t d = false ->
  dict_get k (resolve_inheritance d) = Some e /\
  (Sym.pins e = [] -> Sym.bbox e = None ->
   exists e', dict_get k (resolve_inheritance d) = Some e' /\
              Sym.pins e' = [] /\ Sym.bbox e' = None).
Proof.
  intros G He Hm.
  assert (R : dict_get k (resolve_inheritance d) = Some e).
  { apply fold_resolve_keeps; [exact G|].
    intros t' Ht'. rewrite He in Ht'. injection Ht' as <-.
    unfold dict_mem in Hm. destruct (dict_get t d); [discriminate|].
    reflexivity. }
  split; [exact R|]. intros Hp Hb. exists e. auto.
Qed.

Lemma C8_missing_base_leaves_entry_witness :
  dict_get (s_ "B") [(s_ "A", symA); (s_ "B", symB)] = Some symB /\
  dict_get (s_ "B") (resolve_inheritance [(s_ "A", symA); (s_ "B", symB)])
  = Some symB.
Proof.
  split; [reflexivity|].
  apply (C8_missing_base_leaves_entry
           [(s_ "A", symA); (s_ "B", symB)] (s_ "B") (s_ "C") symB);
    reflexivity.
Defined.

Lemma In_dict_set (V : Type) (k k' : str) (v v' : V) (d : dict V) :
  In (k', v') (dict_set k v d) -> (k', v') = (k, v) \/ In (k', v') d.
Proof.
  induction d as [|[k2 v2] d IH]; simpl.
  - intros [E|[]]. left. congruence.
  - destruct (str_eq_dec k k2) as [->|Hne]; simpl.
    + intros [E|I]; [left; congruence|tauto].
    + intros [E|I]; [tauto|]. destruct (IH I); tauto.
Qed.

Lemma bbox_inherit (base e : Sym.t) :
  Sym.bbox (inherit base e) = Sym.bbox e \/
  Sym.bbox (inherit base e) = Sym.bbox base.
Proof.
  unfold inherit. destruct e as [i ps b x r]; simpl.
  destruct ps, b; simpl; auto.
Qed.

Lemma resolve_step_ok (d : index) (k : str) :
  entries_ok d -> entries_ok (resolve_step d k).
Proof.
  intros Hok. rewrite resolve_step_entry.
  destruct (dict_get k d) as [sym|] eqn:G; [|exact Hok].
  intros k' e' b Hin Hb.
  apply In_dict_set in Hin. destruct Hin as [E|Hin]; [|eauto].
  injection E as -> ->. unfold resolve_entry in Hb.
  apply dict_get_In in G.
  destruct (truthy (Sym.extends sym)); [|eauto].
  destruct (Sym.extends sym) as [ext|]; [|eauto].
  destruct (dict_get ext d) as [base|] eqn:Gb; [|eauto].
  apply dict_get_In in Gb.
  destruct (bbox_inherit base sym) as [E|E]; rewrite E in Hb; eauto.
Qed.

Lemma resolve_ok (d : index) :
  entries_ok d -> entries_ok (resolve_inheritance d).
Proof.
  unfold resolve_inheritance. generalize (keys d) as l.
  intros l; revert d; induction l as [|k l IH]; intros d Hok; simpl.
  - exact Hok.
  - apply IH. apply resolve_step_ok. exact Hok.
Qed.

(** ** The block scanner *)

Lemma block_end_le (s : str) (depth : Z) : block_end s depth <= length s.
Proof.
  revert depth; induction s as [|c s IH]; intros depth; simpl; [lia|].
  destruct (Ascii.eqb c "(").
  - specialize (IH (depth + 1)%Z); lia.
  - destruct (Ascii.eqb c ")"); [destruct (depth - 1 =? 0)%Z|].
    + lia.
    + specialize (IH (depth - 1)%Z); lia.
    + specialize (IH depth); lia.
Qed.

Lemma block_end_pos (c : ascii) (s : str) (depth : Z) :
  1 <= block_end (c :: s) depth.
Proof.
  simpl. destruct (Ascii.eqb c "("); [lia|].
  destruct (Ascii.eqb c ")"); [destruct (depth - 1 =? 0)%Z|]; lia.
Qed.

Lemma skip_block_shorter (c : ascii) (r : str) :
  length (skipn (block_end (c :: r) 0) (c :: r)) < length (c :: r).
Proof.
  rewrite length_skipn. pose proof (block_end_pos c r 0).
  pose proof (block_end_le (c :: r) 0). cbn [length] in *. lia.
Qed.

(** The inner loop that does not [break] runs to the end of the text. *)
Lemma block_end_unclosed (s : str) (depth : Z) :
  closes s depth = false -> block_end s depth = length s.
Proof.
  revert depth; induction s as [|c s IH]; intros depth; simpl; [reflexivity|].
  destruct (Ascii.eqb c "("); [intros H; f_equal; auto|].
  destruct (Ascii.eqb c ")"); [|intros H; f_equal; auto].
  destruct (depth - 1 =? 0)%Z; [discriminate|]. intros H; f_equal; auto.
Qed.

Lemma scan_cons (c : ascii) (r : str) (symbols : index) :
  scan (c :: r) symbols =
  if startswith symbol_marker (c :: r) then
    let n := block_end (c :: r) 0 in
    let block := firstn n (c :: r) in
    match symbol_id_of block with
    | None => scan (skipn n (c :: r)) symbols
    | Some symbol_id =>
        match parse_symbol_block symbol_id block with
        | Some e => scan (skipn n (c :: r)) (dict_set symbol_id e symbols)
        | None => None
        end
    end
  else scan r symbols.
Proof.
  rewrite scan_equation_2.
  destruct (startswith symbol_marker (c :: r)); reflexivity.
Qed.

Lemma blocks_cons (c : ascii) (r : str) :
  blocks (c :: r) =
  if startswith symbol_marker (c :: r) then
    firstn (block_end (c :: r) 0) (c :: r)
    :: blocks (skipn (block_end (c :: r) 0) (c :: r))
  else blocks r.
Proof.
  rewrite blocks_equation_2.
  destruct (startswith symbol_marker (c :: r)); reflexivity.
Qed.

Lemma fold_add_block_none (bs : list str) :
  fold_left add_block bs None = None.
Proof. induction bs; simpl; auto. Qed.

(** The outer loop handles the blocks it cuts one after the other. *)
Lemma scan_fold_blocks (rest : str) (symbols : index) :
  scan rest symbols = fold_left add_block (blocks rest) (Some symbols).
Proof.
  remember (length rest) as n eqn:Hn.
  assert (Hle : length rest <= n) by lia. clear Hn.
  revert rest symbols Hle.
  induction n as [|n IH]; intros [|c r] symbols Hle; simpl in Hle;
    try lia; try (rewrite scan_equation_1, blocks_equation_1; reflexivity).
  rewrite scan_cons, blocks_cons.
  destruct (startswith symbol_marker (c :: r)); [|apply IH; lia].
  pose proof (skip_block_shorter c r) as Hlt. cbn [length] in Hlt.
  cbv zeta. cbn [fold_left]. unfold add_block at 2. cbn [bind].
  destruct (symbol_id_of _) as [i|]; [|apply IH; lia].
  destruct (parse_symbol_block i _) as [e|]; cbn [bind].
  - apply IH. lia.
  - symmetry. apply fold_add_block_none.
Qed.

Lemma count_char_cons (c a : ascii) (s : str) :
  count_char c (a :: s) =
  if Ascii.eqb c a then S (count_char c s) else count_char c s.
Proof.
  unfold count_char. simpl. destruct (Ascii.eqb c a); reflexivity.
Qed.

(** When the inner loop leaves by [break], the text it has passed holds as
    many closing parentheses as opening ones plus the depth it started at. *)
Lemma closed_block_depth (s : str) (depth : Z) :
  closes s depth = true ->
  (Z.of_nat (count_char "(" (firstn (block_end s depth) s)) + depth)%Z
  = Z.of_nat (count_char ")" (firstn (block_end s depth) s)).
Proof.
  revert depth; induction s as [|c s IH]; intros depth;
    cbn [closes block_end]; [discriminate|].
  destruct (Ascii.eqb c "(") eqn:Eo.
  - intros H. specialize (IH _ H).
    cbn [firstn]. rewrite !count_char_cons.
    apply Ascii.eqb_eq in Eo. subst c. cbn [Ascii.eqb Bool.eqb]. lia.
  - destruct (Ascii.eqb c ")") eqn:Ec.
    + apply Ascii.eqb_eq in Ec. subst c.
      destruct (depth - 1 =? 0)%Z eqn:Ed.
      * intros _. apply Z.eqb_eq in Ed. cbn [firstn].
        rewrite !count_char_cons. cbn. lia.
      * intros H. specialize (IH _ H).
        cbn [firstn]. rewrite !count_char_cons. cbn [Ascii.eqb Bool.eqb]. lia.
    + intros H. specialize (IH _ H).
      cbn [firstn]. rewrite !count_char_cons.
      rewrite (Ascii.eqb_sym "(" c), (Ascii.eqb_sym ")" c), Eo, Ec.
      exact IH.
Qed.

(** A block whose closing parenthesis is found is balanced. *)
Theorem closed_block_balanced (s : str) :
  closes s 0 = true -> balanced (firstn (block_end s 0) s).
Proof.
  intros H. apply closed_block_depth in H.
  unfold balanced. lia.
Qed.

(** A block that is never closed is cut all the same: it runs to the end of
    the text. *)
Lemma unclosed_block_cut (content : str) :
  startswith symbol_marker content = true ->
  closes content 0 = false ->
  blocks content = [content].
Proof.
  intros Hm Hc. destruct content as [|c r]; [discriminate|].
  rewrite blocks_cons, Hm.
  rewrite (block_end_unclosed _ _ Hc).
  rewrite firstn_all, skipn_all, blocks_equation_1. reflexivity.
Qed.

(** C1 (the code departs from it): a block whose depth never returns to 0 is
    not dropped.  The scan cuts it from the marker to the end of the text,
    and when it carries an identifier the index holds the entry built
    from it. *)
Theorem C1_unterminated_block_is_indexed (content i : str) (e : Sym.t) :
  startswith symbol_marker content = true ->
  closes content 0 = false ->
  symbol_id_of content = Some i ->
  parse_symbol_block i content = Some e ->
  blocks content = [content] /\
  parse_kicad_sym content = Some [(i, e)].
Proof.
  intros Hm Hc Hi Hp.
  pose proof (unclosed_block_cut content Hm Hc) as Hb.
  split; [exact Hb|].
  unfold parse_kicad_sym. rewrite scan_fold_blocks, Hb.
  simpl. rewrite Hi. simpl. rewrite Hp. reflexivity.
Qed.

Lemma C1_unterminated_block_is_indexed_witness :
  blocks unterminated = [unterminated] /\
  parse_kicad_sym unterminated = Some [(s_ "X", unterminated_entry)].
Proof.
  apply (C1_unterminated_block_is_indexed unterminated (s_ "X")
                                          unterminated_entry);
    vm_compute; reflexivity.
Defined.

(** C2 (the code departs from it): the block cut from a text that ends
    inside a [(symbol] group has two opening parentheses and one closing
    parenthesis, and it is handed on like any other block. *)
Theorem C2_unterminated_block_unbalanced :
  blocks unterminated = [unterminated] /\
  count_char "(" unterminated = 2 /\
  count_char ")" unterminated = 1 /\
  ~ balanced unterminated /\
  option_map keys (parse_kicad_sym unterminated) = Some [s_ "X"].
Proof.
  split; [|split; [|split; [|split]]]; try (vm_compute; reflexivity).
  unfold balanced. vm_compute. discriminate.
Qed.

(** ** The index of one text, and of several *)

Lemma parse_symbol_block_id (i block : str) (e : Sym.t) :
  parse_symbol_block i block = Some e -> Sym.id e = i.
Proof.
  unfold parse_symbol_block, bind.
  destruct (extract_pins block); [|discriminate].
  destruct (extract_bbox block); [|discriminate].
  intros [= <-]. reflexivity.
Qed.

Lemma add_block_keyed (d d' : index) (block : str) :
  keyed_by_id d -> add_block (Some d) block = Some d' -> keyed_by_id d'.
Proof.
  unfold add_block, bind. intros Hk.
  destruct (symbol_id_of block) as [i|]; [|intros [= <-]; exact Hk].
  destruct (parse_symbol_block i block) as [e|] eqn:Hp; [|discriminate].
  intros [= <-] k' e' Hin.
  apply In_dict_set in Hin. destruct Hin as [E|Hin]; [|auto].
  injection E as -> ->. eapply parse_symbol_block_id; eauto.
Qed.

Lemma add_block_nodup (d d' : index) (block : str) :
  NoDup (keys d) -> add_block (Some d) block = Some d' -> NoDup (keys d').
Proof.
  unfold add_block, bind. intros Hk.
  destruct (symbol_id_of block) as [i|]; [|intros [= <-]; exact Hk].
  destruct (parse_symbol_block i block) as [e|]; [|discriminate].
  intros [= <-]. apply NoDup_dict_set. exact Hk.
Qed.

(** An invariant of the index carries over the whole scan. *)
Lemma fold_add_block_inv (P : index -> Prop) (bs : list str) (d d' : index) :
  (forall d1 d2 b, P d1 -> add_block (Some d1) b = Some d2 -> P d2) ->
  P d -> fold_left add_block bs (Some d) = Some d' -> P d'.
Proof.
  intros Hstep. revert d; induction bs as [|b bs IH]; cbn [fold_left];
    intros d Hd.
  - intros [= <-]. exact Hd.
  - destruct (add_block (Some d) b) as [d1|] eqn:E.
    + apply IH. eapply Hstep; eauto.
    + rewrite fold_add_block_none. discriminate.
Qed.

Lemma parse_kicad_sym_nodup (content : str) (d : index) :
  parse_kicad_sym content = Some d -> NoDup (keys d).
Proof.
  unfold parse_kicad_sym. rewrite scan_fold_blocks.
  apply (fold_add_block_inv (fun d => NoDup (keys d))).
  - apply add_block_nodup.
  - constructor.
Qed.

Lemma fold_add_block_other (i : str) (bs : list str) (d d' : index) :
  (forall b, In b bs -> symbol_id_of b <> Some i) ->
  fold_left add_block bs (Some d) = Some d' ->
  dict_get i d' = dict_get i d.
Proof.
  revert d; induction bs as [|b bs IH]; cbn [fold_left]; intros d Hne.
  - intros [= <-]. reflexivity.
  - destruct (add_block (Some d) b) as [d1|] eqn:E;
      [|rewrite fold_add_block_none; discriminate].
    intros H. rewrite (IH d1) by (simpl in Hne; auto).
    unfold add_block, bind in E.
    destruct (symbol_id_of b) as [j|] eqn:Ej; [|congruence].
    destruct (parse_symbol_block j b); [|discriminate].
    injection E as <-. apply dict_get_set_other.
    intros ->. apply (Hne b); simpl; auto.
Qed.

(** C10: in the index of one text every entry is stored under its own
    [id], and for an identifier declared by several blocks of the text the
    index holds the entry built from the last of them. *)
Theorem C10_key_is_id_and_last_block_wins (content : str) (d : index) :
  parse_kicad_sym content = Some d ->
  (forall k e, In (k, e) d -> Sym.id e = k) /\
  (forall bs1 b bs2 i,
     blocks content = bs1 ++ b :: bs2 ->
     symbol_id_of b = Some i ->
     (forall b', In b' bs2 -> symbol_id_of b' <> Some i) ->
     exists e, parse_symbol_block i b = Some e /\ dict_get i d = Some e).
Proof.
  unfold parse_kicad_sym. rewrite scan_fold_blocks. intros H. split.
  - revert H. apply (fold_add_block_inv keyed_by_id).
    + apply add_block_keyed.
    + intros k e [].
  - intros bs1 b bs2 i Hb Hi Hlast. rewrite Hb in H.
    rewrite fold_left_app in H. cbn [fold_left] in H.
    destruct (fold_left add_block bs1 _) as [d1|].
    2:{ change (add_block None b) with (@None index) in H.
        rewrite fold_add_block_none in H. discriminate. }
    assert (E : add_block (Some d1) b =
                match parse_symbol_block i b with
                | Some e => Some (dict_set i e d1)
                | None => None
                end).
    { unfold add_block, bind. rewrite Hi. reflexivity. }
    rewrite E in H. clear E.
    destruct (parse_symbol_block i b) as [e|];
      [|rewrite fold_add_block_none in H; discriminate].
    exists e. split; [reflexivity|].
    rewrite (fold_add_block_other i bs2 _ d Hlast H).
    apply dict_get_set_same.
Qed.

Lemma C10_key_is_id_and_last_block_wins_witness :
  blocks file_twice = [block_X "A"; block_X "B"] /\
  (forall k e, In (k, e) [(s_ "X", entry_X "B")] -> Sym.id e = k) /\
  exists e, parse_symbol_block (s_ "X") (block_X "B") = Some e /\
            dict_get (s_ "X") [(s_ "X", entry_X "B")] = Some e.
Proof.
  assert (P : parse_kicad_sym file_twice = Some [(s_ "X", entry_X "B")])
    by (vm_compute; reflexivity).
  destruct (C10_key_is_id_and_last_block_wins file_twice _ P) as [K L].
  split; [vm_compute; reflexivity|]. split; [exact K|].
  apply (L [block_X "A"] (block_X "B") [] (s_ "X")).
  - vm_compute; reflexivity.
  - vm_compute; reflexivity.
  - intros b' [].
Defined.

Lemma dict_update_get_other (V : Type) (k : str) (d2 d : dict V) :
  ~ In k (keys d2) -> dict_get k (dict_update d d2) = dict_get k d.
Proof.
  unfold dict_update.
  revert d; induction d2 as [|[k1 v1] d2 IH]; intros d Hni; simpl.
  - reflexivity.
  - simpl in Hni. rewrite IH by tauto.
    apply dict_get_set_other. intros ->. tauto.
Qed.

(** After [d.update(d2)] a key of [d2] holds the value it has in [d2]. *)
Lemma dict_update_get (V : Type) (k : str) (v : V) (d2 d : dict V) :
  NoDup (keys d2) -> dict_get k d2 = Some v ->
  dict_get k (dict_update d d2) = Some v.
Proof.
  revert d; induction d2 as [|[k1 v1] d2 IH]; intros d Hnd; simpl;
    [discriminate|].
  inversion Hnd as [|? ? Hni Hnd']; subst.
  destruct (str_eq_dec k k1) as [->|Hne].
  - intros [= ->].
    change (dict_update d ((k1, v) :: d2))
      with (dict_update (dict_set k1 v d) d2).
    rewrite dict_update_get_other by exact Hni.
    apply dict_get_set_same.
  - intros G.
    change (dict_update d ((k1, v1) :: d2))
      with (dict_update (dict_set k1 v1 d) d2).
    apply IH; assumption.
Qed.

(** C7: when two files processed one after the other both define [X], the
    merged index holds under [X] the entry of the file processed last,
    whole; nothing of the earlier entry is kept. *)
Theorem C7_later_file_replaces_entry
  (all_symbols : index) (c1 c2 : str) (s1 s2 : index) (x : str)
  (e1 e2 : Sym.t) :
  parse_kicad_sym c1 = Some s1 -> parse_kicad_sym c2 = Some s2 ->
  dict_get x s1 = Some e1 -> dict_get x s2 = Some e2 ->
  exists merged,
    merge_files [c1; c2] all_symbols = Some merged /\
    dict_get x merged = Some e2.
Proof.
  intros P1 P2 G1 G2. simpl. rewrite P1. simpl. rewrite P2. simpl.
  eexists. split; [reflexivity|].
  apply dict_update_get; [|exact G2].
  eapply parse_kicad_sym_nodup. exact P2.
Qed.

Lemma C7_later_file_replaces_entry_witness :
  exists merged,
    merge_files [file1; file2] [] = Some merged /\
    dict_get (s_ "X") merged = Some (entry_X "B").
Proof.
  apply (C7_later_file_replaces_entry
           [] file1 file2
           [(s_ "X", entry_X "A")] [(s_ "X", entry_X "B")]
           (s_ "X") (entry_X "A") (entry_X "B"));
    vm_compute; reflexivity.
Defined.

(** ** Floating point: conversion and order *)

Lemma round_ratio_not_nan (sg : bool) (n d : Z) :
  is_nan (round_ratio sg n d) = false.
Proof.
  unfold round_ratio.
  destruct (scaled n d (Z.max (Z.log2 n - Z.log2 d - 52) emin64))
    as [n1 d1].
  destruct (scaled n d _) as [num den].
  destruct (_ =? 2 ^ 53)%Z.
  - destruct (2 ^ 52)%Z; try reflexivity.
    destruct (_ <=? emax - prec)%Z; reflexivity.
  - destruct (match (2 * (num mod den) ?= den)%Z with
              | Eq => _ | Lt => _ | Gt => _ end); try reflexivity.
    destruct (_ <=? emax - prec)%Z; reflexivity.
Qed.

(** [float(...)] of a numeral never is a NaN. *)
Lemma float_of_string_not_nan (s : str) (f : float) :
  float_of_string s = Some f -> is_nan f = false.
Proof.
  unfold float_of_string.
  destruct (match s with
            | [] => (false, s)
            | c :: t => if Ascii.eqb c "-" then (true, t) else (false, s)
            end) as [sg body].
  destruct (span is_digit body) as [ip r1].
  destruct (match r1 with
            | [] => ([], r1)
            | c :: t => if Ascii.eqb c "." then span is_digit t else ([], r1)
            end) as [fp r2].
  destruct r2; [|discriminate].
  destruct (ip ++ fp); [discriminate|].
  destruct (_ =? 0)%Z; intros [= <-]; [reflexivity|].
  apply round_ratio_not_nan.
Qed.

Ltac split_compare :=
  repeat match goal with
    | H : context [Pos.compare_cont Eq ?x ?y] |- _ =>
        change (Pos.compare_cont Eq x y) with (Pos.compare x y) in H;
        destruct (Pos.compare_spec x y)
    | |- context [Pos.compare_cont Eq ?x ?y] =>
        change (Pos.compare_cont Eq x y) with (Pos.compare x y);
        destruct (Pos.compare_spec x y)
    | H : context [Z.compare ?x ?y] |- _ => destruct (Z.compare_spec x y)
    | |- context [Z.compare ?x ?y] => destruct (Z.compare_spec x y)
    end.

Ltac float_cases :=
  unfold fle, flt, feq, SFleb, SFltb, SFeqb, SFcompare in *;
  repeat match goal with
    | f : float |- _ => destruct f
    | f : spec_float |- _ => destruct f
    | b : bool |- _ => destruct b
    end;
  simpl in *; try reflexivity; try discriminate;
  split_compare; simpl in *; subst;
  try reflexivity; try discriminate; try lia.

Lemma fle_refl (a : float) : is_nan a = false -> fle a a = true.
Proof. intros H. float_cases. Qed.

Lemma fle_trans (a b c : float) :
  fle a b = true -> fle b c = true -> fle a c = true.
Proof. intros H1 H2. float_cases. Qed.

Lemma fle_not_nan (a b : float) :
  fle a b = true -> is_nan a = false /\ is_nan b = false.
Proof. intros H. split; float_cases. Qed.

(** Without NaN the order is total. *)
Lemma flt_false_fle (a b : float) :
  is_nan a = false -> is_nan b = false -> flt b a = false -> fle a b = true.
Proof. intros Ha Hb H. float_cases. Qed.

Lemma flt_true_fle (a b : float) : flt a b = true -> fle a b = true.
Proof. intros H. float_cases. Qed.

Lemma pymin_is_min (a b : float) :
  is_nan a = false -> is_nan b = false -> is_min a b (pymin a b).
Proof.
  intros Ha Hb. unfold is_min, pymin.
  destruct (flt b a) eqn:E.
  - split; [apply flt_true_fle; exact E|].
    split; [apply fle_refl; exact Hb|]. auto.
  - split; [apply fle_refl; exact Ha|].
    split; [apply flt_false_fle; assumption|]. auto.
Qed.

Lemma pymax_is_max (a b : float) :
  is_nan a = false -> is_nan b = false -> is_max a b (pymax a b).
Proof.
  intros Ha Hb. unfold is_max, pymax.
  destruct (flt a b) eqn:E.
  - split; [apply flt_true_fle; exact E|].
    split; [apply fle_refl; exact Hb|]. auto.
  - split; [apply fle_refl; exact Ha|].
    split; [apply flt_false_fle; assumption|]. auto.
Qed.

Lemma pymin_le_pymax (a b : float) :
  is_nan a = false -> is_nan b = false -> fle (pymin a b) (pymax a b) = true.
Proof.
  intros Ha Hb.
  destruct (pymin_is_min a b Ha Hb) as (L & _ & _).
  destruct (pymax_is_max a b Ha Hb) as (U & _ & _).
  eapply fle_trans; eassumption.
Qed.






(** ** Field extraction: the claims *)


(** ** Runs of the matcher on texts with unknown parts *)

Lemma star_greedy_max (R : Type) (p : ascii -> bool) (t rest : str)
      (k : str -> option R) (x : R) :
  Forall (fun c => p c = true) t -> stops p rest ->
  k rest = Some x -> star_greedy p (t ++ rest) k = Some x.
Proof.
  intros Ht Hs Hk. induction Ht as [|c t Hc Ht IH]; simpl.
  - destruct rest as [|c rest]; simpl; [exact Hk|].
    simpl in Hs. rewrite Hs. exact Hk.
  - rewrite Hc, IH. reflexivity.
Qed.

Lemma exec_plus_max (R : Type) (p : ascii -> bool) (t rest : str) (g : groups)
      (k : str -> groups -> option R) (x : R) :
  t <> [] -> Forall (fun c => p c = true) t -> stops p rest ->
  k rest g = Some x -> exec (Plus p) (t ++ rest) g k = Some x.
Proof.
  intros Hne Ht Hs Hk. destruct t as [|c t]; [congruence|].
  inversion Ht; subst. simpl. rewrite H1.
  apply star_greedy_max; assumption.
Qed.

Lemma firstn_consumed (t rest : str) :
  firstn (length (t ++ rest) - length rest) (t ++ rest) = t.
Proof.
  rewrite length_app. replace (length t + length rest - length rest) with (length t) by lia.
  rewrite firstn_app, Nat.sub_diag, firstn_all. simpl. apply app_nil_r.
Qed.

Lemma exec_grp_plus_max (R : Type) (n : nat) (p : ascii -> bool) (t rest : str) (g : groups)
      (k : str -> groups -> option R) (x : R) :
  t <> [] -> Forall (fun c => p c = true) t -> stops p rest ->
  k rest ((n, t) :: g) = Some x -> exec (Grp n (Plus p)) (t ++ rest) g k = Some x.
Proof.
  intros Hne Ht Hs Hk. cbn [exec].
  change (exec (Plus p) (t ++ rest) g (fun t0 g' => k t0 ((n, firstn (length (t ++ rest) - length t0) (t ++ rest)) :: g')) = Some x).
  apply exec_plus_max; auto. rewrite firstn_consumed. exact Hk.
Qed.

Lemma exec_lits (R : Type) (l rest : str) (g : groups) (k : str -> groups -> option R) :
  exec (lits l) (l ++ rest) g k = k rest g.
Proof.
  induction l as [|c l IH]; simpl; [reflexivity|].
  rewrite Ascii.eqb_refl. exact IH.
Qed.

Lemma exec_seq_cons (R : Type) (r : regex) (rs : list regex) (s : str) (g : groups) (k : str -> groups -> option R) :
  exec (seq (r :: rs)) s g k = exec r s g (fun t g' => exec (seq rs) t g' k).
Proof. reflexivity. Qed.


Lemma exec_star_max (R : Type) (p : ascii -> bool) (t rest : str) (g : groups)
      (k : str -> groups -> option R) (x : R) :
  Forall (fun c => p c = true) t -> stops p rest ->
  k rest g = Some x -> exec (Star p) (t ++ rest) g k = Some x.
Proof. intros. cbn [exec]. apply star_greedy_max; assumption. Qed.

Lemma exec_lazy_now (R : Type) (p : ascii -> bool) (s : str) (g : groups)
      (k : str -> groups -> option R) (x : R) :
  k s g = Some x -> exec (StarLazy p) s g k = Some x.
Proof. intros H. cbn [exec]. destruct s; simpl; rewrite H; reflexivity. Qed.

Lemma exec_lit (R : Type) (c : ascii) (s : str) (g : groups)
      (k : str -> groups -> option R) (x : R) :
  k s g = Some x -> exec (Lit c) (c :: s) g k = Some x.
Proof. intros H. simpl. rewrite Ascii.eqb_refl. exact H. Qed.

Lemma is_num_not_space (c : ascii) : is_num c = true -> is_space c = false.
Proof. destruct c as [[] [] [] [] [] [] [] []]; vm_compute; congruence. Qed.

Lemma numeral_stops_space (t rest : str) : numeral t -> stops is_space (t ++ rest).
Proof.
  intros [Hne Hall]. destruct t as [|c t]; [congruence|]. simpl.
  inversion Hall; subst. apply is_num_not_space. assumption.
Qed.


Lemma opens_seq_lits (c0 : ascii) (l : str) (rs : list regex) :
  c0 = "("%char -> opens (seq (lits (c0 :: l) :: rs)).
Proof.
  intros -> c s Hc. unfold re_match. cbn [seq fold_right lits exec].
  destruct (Ascii.eqb c "(") eqn:E; [|reflexivity].
  apply Ascii.eqb_eq in E. congruence.
Qed.

Lemma opens_pin : opens pin_regex.
Proof. apply opens_seq_lits. reflexivity. Qed.
Lemma opens_rect : opens rect_regex.
Proof. apply opens_seq_lits. reflexivity. Qed.
Lemma opens_polyline : opens polyline_regex.
Proof. apply opens_seq_lits. reflexivity. Qed.
Lemma opens_extends : opens extends_regex.
Proof. apply opens_seq_lits. reflexivity. Qed.

Lemma is_num_not_open (c : ascii) : is_num c = true -> c <> "("%char.
Proof. intros H ->. discriminate H. Qed.

Lemma re_search_fail (r : regex) (c : ascii) (s : str) :
  re_match r (c :: s) = None -> re_search r (c :: s) = re_search r s.
Proof. intros H. cbn [re_search]. rewrite H. reflexivity. Qed.

Lemma re_search_numeral (r : regex) (t rest : str) :
  opens r -> Forall (fun c => is_num c = true) t ->
  re_search r (t ++ rest) = re_search r rest.
Proof.
  intros Ho Ht. induction Ht as [|c t Hc Ht IH]; [reflexivity|].
  cbn [app]. rewrite re_search_fail; [exact IH|].
  apply Ho. apply is_num_not_open. exact Hc.
Qed.

Lemma re_search_here (r : regex) (s : str) (m : str * groups) :
  re_match r s = Some m -> re_search r s = Some m.
Proof. intros H. destruct s; cbn [re_search]; rewrite H; reflexivity. Qed.

Lemma finditer_fail (r : regex) (c : ascii) (s : str) :
  re_match r (c :: s) = None ->
  finditer_from r (c :: s) 0 = finditer_from r s 0.
Proof. intros H. cbn [finditer_from]. rewrite H. reflexivity. Qed.

Lemma finditer_numeral (r : regex) (t rest : str) :
  opens r -> Forall (fun c => is_num c = true) t ->
  finditer_from r (t ++ rest) 0 = finditer_from r rest 0.
Proof.
  intros Ho Ht. induction Ht as [|c t Hc Ht IH]; [reflexivity|].
  cbn [app]. rewrite finditer_fail; [exact IH|].
  apply Ho. apply is_num_not_open. exact Hc.
Qed.

Lemma finditer_skip (r : regex) (a rest : str) :
  finditer_from r (a ++ rest) (length a) = finditer_from r rest 0.
Proof.
  induction a as [|c a IH]; [reflexivity|]. cbn [app length finditer_from].
  exact IH.
Qed.

Lemma finditer_here (r : regex) (a rest : str) (g : groups) :
  a <> [] -> re_match r (a ++ rest) = Some (rest, g) ->
  finditer_from r (a ++ rest) 0 = g :: finditer_from r rest 0.
Proof.
  intros Hne H. destruct a as [|c a]; [congruence|].
  cbn [app finditer_from] in *. rewrite H.
  replace (length (c :: a ++ rest) - length rest - 1) with (length a)
    by (cbn [length]; rewrite length_app; lia).
  rewrite finditer_skip. reflexivity.
Qed.

Lemma span_spec (p : ascii -> bool) (s a b : str) :
  span p s = (a, b) -> s = a ++ b /\ Forall (fun c => p c = true) a.
Proof.
  revert a b; induction s as [|c s IH]; intros a b; simpl.
  - intros [= <- <-]. auto.
  - destruct (p c) eqn:E.
    + destruct (span p s) as [a' b']. intros [= <- <-].
      destruct (IH a' b' eq_refl) as [-> H]. auto.
    + intros [= <- <-]. auto.
Qed.

Lemma is_digit_num (c : ascii) : is_digit c = true -> is_num c = true.
Proof. unfold is_num. intros ->. rewrite orb_true_r. reflexivity. Qed.

(** A text that [float] accepts is a numeral. *)
Lemma float_of_string_numeral (s : str) (f : float) :
  float_of_string s = Some f -> numeral s.
Proof.
  unfold float_of_string.
  assert (D : forall t a b, span is_digit t = (a, b) ->
                t = a ++ b /\ Forall (fun c => is_num c = true) a).
  { intros t a b H. apply span_spec in H. destruct H as [-> H].
    split; [reflexivity|]. eapply Forall_impl; [|exact H].
    apply is_digit_num. }
  assert (B : forall body ip r1 fp r2,
             span is_digit body = (ip, r1) ->
             match r1 with
             | [] => ([], r1)
             | c :: t => if Ascii.eqb c "." then span is_digit t else ([], r1)
             end = (fp, r2) ->
             r2 = [] -> ip ++ fp <> [] -> numeral body).
  { intros body ip r1 fp r2 H1 H2 -> Hne.
    apply D in H1. destruct H1 as [-> Hip].
    destruct r1 as [|c t].
    - injection H2 as <-. rewrite app_nil_r in *. split; assumption.
    - destruct (Ascii.eqb c ".") eqn:E.
      + apply Ascii.eqb_eq in E. subst c.
        apply D in H2. destruct H2 as [-> Hfp]. rewrite app_nil_r.
        split; [destruct ip; discriminate|].
        apply Forall_app. split; [exact Hip|]. constructor; [reflexivity|exact Hfp].
      + discriminate H2. }
  destruct s as [|c t].
  - simpl. discriminate.
  - destruct (Ascii.eqb c "-") eqn:E.
    + apply Ascii.eqb_eq in E. subst c.
      destruct (span is_digit t) as [ip r1] eqn:H1.
      destruct (match r1 with [] => _ | _ :: _ => _ end) as [fp r2] eqn:H2.
      destruct r2; [|discriminate].
      destruct (ip ++ fp) eqn:Hd; [discriminate|]. intros _.
      destruct (B t ip r1 fp [] H1 H2 eq_refl) as [_ Hall]; [congruence|].
      split; [discriminate|]. constructor; [reflexivity|exact Hall].
    + destruct (span is_digit (c :: t)) as [ip r1] eqn:H1.
      destruct (match r1 with [] => _ | _ :: _ => _ end) as [fp r2] eqn:H2.
      destruct r2; [|discriminate].
      destruct (ip ++ fp) eqn:Hd; [discriminate|]. intros _.
      apply (B (c :: t) ip r1 fp [] H1 H2 eq_refl). congruence.
Qed.

Ltac tok := try discriminate; try (repeat constructor); try reflexivity.


Lemma pin_text_match (X Y : str) :
  numeral X -> numeral Y ->
  re_match pin_regex (pin_text X Y ++ s_ ")))") =
  Some (s_ ")))",
        [(6, s_ "1"); (5, s_ "1"); (3, Y); (2, X); (1, s_ "passive")]).
Proof.
  intros HX HY. pose proof HX as [HX1 HX2]. pose proof HY as [HY1 HY2].
  unfold re_match, pin_regex, pin_text. rewrite <- !app_assoc.
  rewrite exec_seq_cons, exec_lits.
  rewrite exec_seq_cons. apply exec_plus_max; tok.
  rewrite exec_seq_cons. apply exec_grp_plus_max; tok.
  rewrite exec_seq_cons. apply exec_plus_max; tok.
  rewrite exec_seq_cons. apply exec_plus_max; tok.
  rewrite exec_seq_cons. apply exec_star_max; tok.
  rewrite exec_seq_cons. apply exec_lazy_now.
  rewrite exec_seq_cons, exec_lits.
  rewrite exec_seq_cons. apply exec_plus_max; tok.
  { apply numeral_stops_space; assumption. }
  rewrite exec_seq_cons. apply exec_grp_plus_max; tok; try assumption.
  rewrite exec_seq_cons. apply exec_plus_max; tok.
  { apply numeral_stops_space; assumption. }
  rewrite exec_seq_cons. apply exec_grp_plus_max; tok; assumption.
Qed.

Ltac skip_search :=
  repeat first
    [ rewrite re_search_fail by reflexivity
    | rewrite re_search_numeral by (auto using opens_rect, opens_extends) ].

Ltac skip_iter :=
  repeat first
    [ rewrite finditer_fail by reflexivity
    | rewrite finditer_numeral by (auto using opens_pin, opens_polyline) ].

Ltac spell :=
  unfold pin_block, pin_text, quoted;
  repeat first [ rewrite <- app_assoc
               | progress (cbn [s_ list_ascii_of_string app]) ].

Lemma pin_block_pins (X Y : str) :
  numeral X -> numeral Y ->
  finditer pin_regex (pin_block X Y) =
  [[(6, s_ "1"); (5, s_ "1"); (3, Y); (2, X); (1, s_ "passive")]].
Proof.
  intros HX HY. unfold finditer, pin_block.
  cbn [quoted s_ list_ascii_of_string app].
  skip_iter.
  change (finditer_from pin_regex (pin_text X Y ++ s_ ")))") 0 =
          [[(6, s_ "1"); (5, s_ "1"); (3, Y); (2, X); (1, s_ "passive")]]).
  rewrite (finditer_here pin_regex (pin_text X Y) (s_ ")))")
             [(6, s_ "1"); (5, s_ "1"); (3, Y); (2, X); (1, s_ "passive")]).
  - reflexivity.
  - discriminate.
  - apply pin_text_match; assumption.
Qed.

Lemma pin_block_no_rect (X Y : str) :
  numeral X -> numeral Y -> re_search rect_regex (pin_block X Y) = None.
Proof.
  intros [_ HX] [_ HY]. spell. skip_search. reflexivity.
Qed.

Lemma pin_block_no_extends (X Y : str) :
  numeral X -> numeral Y -> re_search extends_regex (pin_block X Y) = None.
Proof.
  intros [_ HX] [_ HY]. spell. skip_search. reflexivity.
Qed.

Lemma pin_block_no_polyline (X Y : str) :
  numeral X -> numeral Y -> finditer polyline_regex (pin_block X Y) = [].
Proof.
  intros [_ HX] [_ HY]. unfold finditer. spell. skip_iter. reflexivity.
Qed.

Lemma pin_block_entry (X Y : str) (vx vy : float) :
  float_of_string X = Some vx -> float_of_string Y = Some vy ->
  parse_symbol_block (s_ "R") (pin_block X Y) =
  Some (Sym.mk (s_ "R")
               [Pin.mk (s_ "passive") vx (fneg vy) (PyInt 0) (s_ "1") (s_ "1")]
               None None (pin_block X Y)).
Proof.
  intros FX FY.
  pose proof (float_of_string_numeral _ _ FX) as HX.
  pose proof (float_of_string_numeral _ _ FY) as HY.
  unfold parse_symbol_block, extract_pins, extract_bbox, extract_extends,
    polyline_bbox.
  rewrite pin_block_pins, pin_block_no_rect, pin_block_no_extends,
    pin_block_no_polyline by assumption.
  cbn [mapM bind map fold_left].
  unfold pin_of_match.
  change (group_text 2 _) with X. change (group_text 3 _) with Y.
  rewrite FX, FY. reflexivity.
Qed.








Lemma mapM_Forall2 (A B : Type) (f : A -> option B) (l : list A)
      (l' : list B) :
  mapM f l = Some l' -> Forall2 (fun a b => f a = Some b) l l'.
Proof.
  revert l'; induction l as [|a l IH]; intros l'; simpl.
  - intros [= <-]. constructor.
  - unfold bind. destruct (f a) as [b|] eqn:E; [|discriminate].
    destruct (mapM f l) as [bs|]; [|discriminate].
    intros [= <-]. constructor; auto.
Qed.

Lemma pin_of_match_at (m : groups) (p : Pin.t) :
  pin_of_match m = Some p -> pin_at m p.
Proof.
  unfold pin_of_match, pin_at, bind.
  destruct (float_of_string (group_text 2 m)) as [vx|]; [|discriminate].
  destruct (float_of_string (group_text 3 m)) as [vy|]; [|discriminate].
  destruct (group 4 m) as [[|c a]|];
    [| destruct (float_of_string (c :: a)); [|discriminate] |];
    intros [= <-]; exists vx, vy; simpl; auto.
Qed.

Lemma pins_at_matches (i block : str) (e : Sym.t) :
  parse_symbol_block i block = Some e ->
  Forall2 pin_at (finditer pin_regex block) (Sym.pins e).
Proof.
  unfold parse_symbol_block, bind.
  destruct (extract_pins block) as [ps|] eqn:Hp; [|discriminate].
  destruct (extract_bbox block); [|discriminate].
  intros [= <-]. simpl.
  apply mapM_Forall2 in Hp.
  eapply Forall2_impl; [|exact Hp].
  intros m p H. apply pin_of_match_at. exact H.
Qed.




Lemma add_point_ok (e : envelope) (p : float * float) :
  envelope_ok e -> point_ok p -> envelope_ok (add_point e p).
Proof.
  intros He [Hx Hy]. destruct p as [px py]. simpl in Hx, Hy. right.
  destruct He as [->|He].
  - simpl. split.
    + clear Hy. unfold pymin, pymax, inf, neg_inf. float_cases.
    + clear Hx. unfold pymin, pymax, inf, neg_inf. float_cases.
  - destruct e as [[[lx hx] ly] hy]. simpl. destruct He as [Lx Ly].
    destruct (fle_not_nan _ _ Lx) as [Nlx Nhx].
    destruct (fle_not_nan _ _ Ly) as [Nly Nhy].
    split.
    + destruct (pymin_is_min lx px Nlx Hx) as (A & _ & _).
      destruct (pymax_is_max hx px Nhx Hx) as (B & _ & _).
      eapply fle_trans; [exact A|]. eapply fle_trans; [exact Lx|exact B].
    + destruct (pymin_is_min ly py Nly Hy) as (A & _ & _).
      destruct (pymax_is_max hy py Nhy Hy) as (B & _ & _).
      eapply fle_trans; [exact A|]. eapply fle_trans; [exact Ly|exact B].
Qed.

Lemma fold_add_point_ok (pts : list (float * float)) (e : envelope) :
  envelope_ok e -> Forall point_ok pts ->
  envelope_ok (fold_left add_point pts e).
Proof.
  revert e; induction pts as [|p pts IH]; intros e He Hp; simpl.
  - exact He.
  - inversion Hp; subst. apply IH; [apply add_point_ok|]; assumption.
Qed.

Lemma xy_of_match_ok (m : groups) (p : float * float) :
  xy_of_match m = Some p -> point_ok p.
Proof.
  unfold xy_of_match, bind.
  destruct (float_of_string (group_text 1 m)) as [px|] eqn:E1;
    [|discriminate].
  destruct (float_of_string (group_text 2 m)) as [py|] eqn:E2;
    [|discriminate].
  intros [= <-]. split; simpl; eapply float_of_string_not_nan; eauto.
Qed.

Lemma mapM_Forall (A B : Type) (f : A -> option B) (P : B -> Prop)
      (l : list A) (l' : list B) :
  (forall a b, f a = Some b -> P b) -> mapM f l = Some l' -> Forall P l'.
Proof.
  intros Hf H. apply mapM_Forall2 in H.
  induction H; constructor; eauto.
Qed.

Lemma add_polyline_ok (e e' : envelope) (pl : str) :
  envelope_ok e -> add_polyline (Some e) pl = Some e' -> envelope_ok e'.
Proof.
  unfold add_polyline, bind. intros He.
  destruct (mapM xy_of_match (finditer xy_regex pl)) as [pts|] eqn:E;
    [|discriminate].
  intros [= <-]. apply fold_add_point_ok; [exact He|].
  eapply mapM_Forall; [|exact E]. apply xy_of_match_ok.
Qed.

Lemma fold_add_polyline_ok (pls : list str) (e e' : envelope) :
  envelope_ok e -> fold_left add_polyline pls (Some e) = Some e' ->
  envelope_ok e'.
Proof.
  revert e; induction pls as [|pl pls IH]; intros e He; cbn [fold_left].
  - intros [= <-]. exact He.
  - destruct (add_polyline (Some e) pl) as [e1|] eqn:E.
    + apply IH. eapply add_polyline_ok; eauto.
    + assert (N : forall l, fold_left add_polyline l None = None)
        by (induction l; simpl; auto).
      rewrite N. discriminate.
Qed.

Lemma rect_bbox_ok (m : groups) (b : BBox.t) :
  rect_bbox m = Some b -> bbox_ok b.
Proof.
  unfold rect_bbox, bind.
  destruct (float_of_string (group_text 1 m)) as [x1|] eqn:E1;
    [|discriminate].
  destruct (float_of_string (group_text 2 m)) as [y1|] eqn:E2;
    [|discriminate].
  destruct (float_of_string (group_text 3 m)) as [x2|] eqn:E3;
    [|discriminate].
  destruct (float_of_string (group_text 4 m)) as [y2|] eqn:E4;
    [|discriminate].
  intros [= <-]. split; simpl; apply pymin_le_pymax;
    eapply float_of_string_not_nan; eauto.
Qed.

Lemma polyline_bbox_ok (block : str) (b : BBox.t) :
  polyline_bbox block = Some (Some b) -> bbox_ok b.
Proof.
  unfold polyline_bbox, bind.
  destruct (fold_left add_polyline _ (Some envelope0)) as [e|] eqn:E;
    [|discriminate].
  apply fold_add_polyline_ok in E; [|left; reflexivity].
  destruct e as [[[lx hx] ly] hy].
  destruct (negb (feq lx inf)) eqn:N; [|discriminate].
  intros [= <-]. destruct E as [E|E].
  - injection E as -> -> -> ->. discriminate N.
  - exact E.
Qed.

Lemma extract_bbox_ok (block : str) (b : BBox.t) :
  extract_bbox block = Some (Some b) -> bbox_ok b.
Proof.
  unfold extract_bbox, bind.
  destruct (re_search rect_regex block) as [[rest m]|].
  - destruct (rect_bbox m) as [b'|] eqn:E; [|discriminate].
    intros [= <-]. eapply rect_bbox_ok; eauto.
  - apply polyline_bbox_ok.
Qed.

(** C9: a bounding box made by [parse_symbol_block], from a rectangle or
    from polyline points, has [minX <= maxX] and [minY <= maxY], and
    [resolve_inheritance] keeps every entry of an index whose boxes are so
    with such a box. *)
Theorem C9_bbox_invariant :
  (forall i block e b,
     parse_symbol_block i block = Some e -> Sym.bbox e = Some b ->
     bbox_ok b) /\
  (forall d, entries_ok d -> entries_ok (resolve_inheritance d)).
Proof.
  split.
  - intros i block e b. unfold parse_symbol_block, bind.
    destruct (extract_pins block); [|discriminate].
    destruct (extract_bbox block) as [ob|] eqn:E; [|discriminate].
    intros [= <-]. simpl. intros ->. eapply extract_bbox_ok; eauto.
  - apply resolve_ok.
Qed.

Lemma C9_bbox_invariant_witness :
  bbox_ok (BBox.mk (f_of "-1") (f_of "2") (f_of "3") (f_of "7")) /\
  bbox_ok (BBox.mk (f_of "-3") (f_of "1") (f_of "-4") (f_of "2")) /\
  entries_ok (resolve_inheritance chain_base_first).
Proof.
  destruct C9_bbox_invariant as [P R].
  split; [|split].
  - apply (P (s_ "P") block_P
             (Sym.mk (s_ "P") []
                     (Some (BBox.mk (f_of "-1") (f_of "2")
                                    (f_of "3") (f_of "7")))
                     None block_P)); vm_compute; reflexivity.
  - apply (P (s_ "Q") block_Q
             (Sym.mk (s_ "Q") []
                     (Some (BBox.mk (f_of "-3") (f_of "1")
                                    (f_of "-4") (f_of "2")))
                     None block_Q)); vm_compute; reflexivity.
  - apply R. intros k e b Hin Hb.
    simpl in Hin. destruct Hin as [E|[E|[E|[]]]];
      injection E as <- <-; discriminate Hb.
Defined.

(** * Further properties of the script *)

(** ** The block scanner on composed texts *)

Lemma startswith_app (p b rest : str) :
  startswith p b = true -> startswith p (b ++ rest) = true.
Proof.
  revert b; induction p as [|a p IH]; intros [|c b]; simpl; auto;
    [discriminate|].
  intros H. apply andb_prop in H. destruct H as [-> H]. simpl. auto.
Qed.

Lemma block_end_app (b rest : str) (depth : Z) :
  closes b depth = true -> block_end (b ++ rest) depth = block_end b depth.
Proof.
  revert depth; induction b as [|c b IH]; intros depth; cbn [closes];
    [discriminate|].
  cbn [app block_end].
  destruct (Ascii.eqb c "("); [intros H; f_equal; auto|].
  destruct (Ascii.eqb c ")"); [|intros H; f_equal; auto].
  destruct (depth - 1 =? 0)%Z; [reflexivity|]. intros H; f_equal; auto.
Qed.

Lemma blocks_complete (b rest : str) :
  complete b -> blocks (b ++ rest) = b :: blocks rest.
Proof.
  intros (Hm & Hc & Hl). destruct b as [|c r]; [discriminate|].
  cbn [app]. rewrite blocks_cons.
  change (c :: r ++ rest) with ((c :: r) ++ rest).
  rewrite (startswith_app _ _ rest Hm), (block_end_app _ rest _ Hc), Hl.
  rewrite firstn_app, Nat.sub_diag, firstn_all. cbn [firstn].
  rewrite app_nil_r, skipn_app, Nat.sub_diag, skipn_all. reflexivity.
Qed.

Lemma blocks_gap (g rest : str) :
  no_open g -> blocks (g ++ rest) = blocks rest.
Proof.
  intros Hg. induction Hg as [|c g Hc Hg IH]; [reflexivity|].
  cbn [app]. rewrite blocks_cons.
  assert (E : startswith symbol_marker (c :: g ++ rest) = false).
  { change (startswith symbol_marker (c :: g ++ rest))
      with (Ascii.eqb "(" c && startswith (s_ "symbol") (g ++ rest)).
    destruct (Ascii.eqb "(" c) eqn:E; [|reflexivity].
    apply Ascii.eqb_eq in E. congruence. }
  rewrite E. exact IH.
Qed.

(** X1: text in front of a block that holds no opening parenthesis is
    passed over, and a complete block is handled as a whole, whatever it
    nests: the scan of [g ++ b ++ rest] handles [b] and goes on with
    [rest]. *)
Theorem X1_scan_gap_block_rest (g b rest : str) (d : index) :
  no_open g -> complete b ->
  scan (g ++ b ++ rest) d
  = (d' <- add_block (Some d) b ;; scan rest d').
Proof.
  intros Hg Hb.
  rewrite scan_fold_blocks, (blocks_gap _ _ Hg), (blocks_complete _ _ Hb).
  cbn [fold_left].
  destruct (add_block (Some d) b) as [d'|]; cbn [bind].
  - symmetry. apply scan_fold_blocks.
  - apply fold_add_block_none.
Qed.

Lemma X1_scan_gap_block_rest_witness :
  scan (s_ "  " ++ block_X "A" ++ s_ " " ++ block_X "B") []
  = (d' <- add_block (Some []) (block_X "A") ;;
     scan (s_ " " ++ block_X "B") d').
Proof.
  apply (X1_scan_gap_block_rest (s_ "  ") (block_X "A")
                                (s_ " " ++ block_X "B") []).
  - repeat constructor; discriminate.
  - repeat split; vm_compute; reflexivity.
Defined.

(** X2: a complete block that starts with the marker but carries no quoted
    identifier behind it, such as a group named [symbol_lib], is skipped
    with all the symbols nested in it. *)
Theorem X2_unnamed_block_hides_nested (b rest : str) :
  complete b -> symbol_id_of b = None ->
  parse_kicad_sym (b ++ rest) = parse_kicad_sym rest.
Proof.
  intros Hb Hi. unfold parse_kicad_sym.
  rewrite !scan_fold_blocks, (blocks_complete _ _ Hb).
  cbn [fold_left]. unfold add_block at 2. cbn [bind]. rewrite Hi.
  reflexivity.
Qed.

Lemma X2_unnamed_block_hides_nested_witness :
  parse_kicad_sym
    ((s_ "(symbol_lib " ++ block_X "A" ++ s_ ")") ++ s_ " " ++ block_X "B")
  = parse_kicad_sym (s_ " " ++ block_X "B").
Proof.
  apply (X2_unnamed_block_hides_nested
           (s_ "(symbol_lib " ++ block_X "A" ++ s_ ")")
           (s_ " " ++ block_X "B")).
  - repeat split; vm_compute; reflexivity.
  - vm_compute. reflexivity.
Defined.

Lemma blocks_without_marker (content : str) :
  contains symbol_marker content = false -> blocks content = [].
Proof.
  induction content as [|c r IH].
  - intros _. apply blocks_equation_1.
  - cbn [contains]. intros H. apply orb_false_elim in H.
    destruct H as [H1 H2]. rewrite blocks_cons, H1. auto.
Qed.

(** X3: a text in which the marker does not occur, the empty text
    included, gives the empty index. *)
Theorem X3_no_marker_empty_index (content : str) :
  contains symbol_marker content = false ->
  parse_kicad_sym content = Some [].
Proof.
  intros H. unfold parse_kicad_sym.
  rewrite scan_fold_blocks, (blocks_without_marker _ H). reflexivity.
Qed.

Lemma X3_no_marker_empty_index_witness :
  parse_kicad_sym (s_ "(kicad_symbol_lib (version 20211014))") = Some [].
Proof.
  apply (X3_no_marker_empty_index
           (s_ "(kicad_symbol_lib (version 20211014))")).
  vm_compute. reflexivity.
Defined.

Lemma fold_add_block_fails (bs : list str) (d : index) :
  fold_left add_block bs (Some d) = None <->
  exists bs1 b bs2 i,
    bs = bs1 ++ b :: bs2 /\ symbol_id_of b = Some i /\
    parse_symbol_block i b = None.
Proof.
  revert d; induction bs as [|b bs IH]; intros d; cbn [fold_left].
  - split; [discriminate|].
    intros (bs1 & b & bs2 & i & H & _). destruct bs1; discriminate.
  - unfold add_block at 2. cbn [bind].
    destruct (symbol_id_of b) as [i|] eqn:Hi.
    + destruct (parse_symbol_block i b) as [e|] eqn:Hp; cbn [bind].
      * rewrite IH. split.
        -- intros (bs1 & b' & bs2 & j & -> & H1 & H2).
           exists (b :: bs1), b', bs2, j. auto.
        -- intros (bs1 & b' & bs2 & j & H & H1 & H2).
           destruct bs1 as [|x bs1]; cbn [app] in H; injection H as <- ->.
           ++ congruence.
           ++ exists bs1, b', bs2, j. auto.
      * rewrite fold_add_block_none. split; [|reflexivity].
        intros _. exists [], b, bs, i. auto.
    + rewrite IH. split.
      * intros (bs1 & b' & bs2 & j & -> & H1 & H2).
        exists (b :: bs1), b', bs2, j. auto.
      * intros (bs1 & b' & bs2 & j & H & H1 & H2).
        destruct bs1 as [|x bs1]; cbn [app] in H; injection H as <- ->.
        -- congruence.
        -- exists bs1, b', bs2, j. auto.
Qed.

(** X4: [parse_kicad_sym] raises exactly when one of the blocks it cuts
    carries an identifier and makes [parse_symbol_block] raise; blocks
    without identifier never make it fail. *)
Theorem X4_parse_fails_iff_block_fails (content : str) :
  parse_kicad_sym content = None <->
  exists bs1 b bs2 i,
    blocks content = bs1 ++ b :: bs2 /\ symbol_id_of b = Some i /\
    parse_symbol_block i b = None.
Proof.
  unfold parse_kicad_sym. rewrite scan_fold_blocks.
  apply fold_add_block_fails.
Qed.

Lemma In_keys_dict_set (V : Type) (k i : str) (v : V) (d : dict V) :
  In k (keys (dict_set i v d)) <-> k = i \/ In k (keys d).
Proof.
  induction d as [|[k' v'] d IH]; simpl.
  - intuition congruence.
  - destruct (str_eq_dec i k') as [->|Hne]; simpl.
    + intuition congruence.
    + rewrite IH. intuition congruence.
Qed.

Lemma fold_add_block_keys (bs : list str) (d0 d : index) (k : str) :
  fold_left add_block bs (Some d0) = Some d ->
  (In k (keys d) <->
   In k (keys d0) \/ exists b, In b bs /\ symbol_id_of b = Some k).
Proof.
  revert d0; induction bs as [|b bs IH]; intros d0; cbn [fold_left].
  - intros [= <-]. split; [auto|]. intros [H|(b & [] & _)]. exact H.
  - destruct (add_block (Some d0) b) as [d1|] eqn:E;
      [|rewrite fold_add_block_none; discriminate].
    intros H. rewrite (IH d1 H). clear IH H.
    unfold add_block, bind in E.
    destruct (symbol_id_of b) as [i|] eqn:Hi.
    + destruct (parse_symbol_block i b) as [e|]; [|discriminate].
      injection E as <-. rewrite In_keys_dict_set. split.
      * intros [[->|H]|(b' & Hin & Hb)].
        -- right. exists b. simpl. auto.
        -- auto.
        -- right. exists b'. simpl. auto.
      * intros [H|(b' & [<-|Hin] & Hb)].
        -- auto.
        -- left. left. congruence.
        -- right. eauto.
    + injection E as <-. split.
      * intros [H|(b' & Hin & Hb)]; [auto|]. right. exists b'. simpl. auto.
      * intros [H|(b' & [<-|Hin] & Hb)]; [auto|congruence|]. right. eauto.
Qed.

(** X5: the keys of the index of a text are exactly the identifiers of
    the blocks cut from it: every block with an identifier has an entry,
    and nothing else has. *)
Theorem X5_keys_are_block_identifiers (content : str) (d : index) (k : str) :
  parse_kicad_sym content = Some d ->
  (In k (keys d) <->
   exists b, In b (blocks content) /\ symbol_id_of b = Some k).
Proof.
  unfold parse_kicad_sym. rewrite scan_fold_blocks. intros H.
  rewrite (fold_add_block_keys _ _ _ k H). simpl. tauto.
Qed.

Lemma X5_keys_are_block_identifiers_witness :
  In (s_ "X") (keys [(s_ "X", entry_X "B")]) <->
  exists b, In b (blocks file_twice) /\ symbol_id_of b = Some (s_ "X").
Proof.
  apply (X5_keys_are_block_identifiers file_twice
                                       [(s_ "X", entry_X "B")] (s_ "X")).
  vm_compute. reflexivity.
Defined.

Lemma removelast_cons (A : Type) (a : A) (l : list A) :
  l <> [] -> removelast (a :: l) = a :: removelast l.
Proof. destruct l; [congruence|reflexivity]. Qed.

Lemma startswith_split (p t : str) :
  startswith p t = true -> exists u, t = p ++ u.
Proof.
  revert t; induction p as [|a p IH]; intros t; simpl.
  - intros _. exists t. reflexivity.
  - destruct t as [|b t]; [discriminate|]. intros H.
    apply andb_prop in H. destruct H as [E H].
    apply Ascii.eqb_eq in E. subst b.
    destruct (IH t H) as (u & ->). exists u. reflexivity.
Qed.

(** The inner loop does not leave inside the marker. *)
Lemma marker_in_block (t : str) :
  startswith symbol_marker t = true ->
  startswith symbol_marker (firstn (block_end t 0) t) = true.
Proof.
  intros H. apply startswith_split in H. destruct H as (u & ->).
  reflexivity.
Qed.

(** X6: every block the scanner cuts starts with the marker, and every
    block but the last one is balanced; only a block that runs to the end
    of the text can hold more opening than closing parentheses. *)
Theorem X6_blocks_marked_and_balanced_but_last (content : str) :
  Forall (fun b => startswith symbol_marker b = true) (blocks content) /\
  Forall balanced (removelast (blocks content)).
Proof.
  remember (length content) as n eqn:Hn.
  assert (Hle : length content <= n) by lia. clear Hn.
  revert content Hle.
  induction n as [|n IH]; intros [|c r] Hle; cbn [length] in Hle;
    try lia; try (rewrite blocks_equation_1; split; constructor).
  rewrite blocks_cons.
  destruct (startswith symbol_marker (c :: r)) eqn:Hm; [|apply IH; lia].
  pose proof (skip_block_shorter c r) as Hlt. cbn [length] in Hlt.
  destruct (IH (skipn (block_end (c :: r) 0) (c :: r))) as [I1 I2]; [lia|].
  split.
  - constructor; [apply marker_in_block; exact Hm|exact I1].
  - destruct (closes (c :: r) 0) eqn:Hc.
    + destruct (blocks (skipn (block_end (c :: r) 0) (c :: r))) eqn:Hb.
      * constructor.
      * rewrite removelast_cons by discriminate.
        constructor; [apply closed_block_balanced; exact Hc|exact I2].
    + rewrite (block_end_unclosed _ _ Hc), skipn_all, blocks_equation_1.
      constructor.
Qed.

(** ** Field extraction on blocks without the keywords *)

Lemma exec_lits_absent (R : Type) (l u : str) (g : groups)
      (k : str -> groups -> option R) :
  startswith l u = false -> exec (lits l) u g k = None.
Proof.
  revert u; induction l as [|a l IH]; intros u; cbn [startswith lits exec];
    [discriminate|].
  destruct u as [|b u]; [reflexivity|].
  rewrite (Ascii.eqb_sym b a).
  destruct (Ascii.eqb a b); cbn [andb]; [apply IH|reflexivity].
Qed.

Lemma re_match_absent (l u : str) (rs : list regex) :
  startswith l u = false -> re_match (seq (lits l :: rs)) u = None.
Proof. intros H. unfold re_match. cbn [seq fold_right exec].
  apply exec_lits_absent. exact H.
Qed.

Lemma re_search_absent (l s : str) (rs : list regex) :
  contains l s = false -> re_search (seq (lits l :: rs)) s = None.
Proof.
  induction s as [|c s IH]; cbn [contains re_search]; intros H;
    apply orb_false_elim in H; destruct H as [H1 H2];
    rewrite (re_match_absent _ _ rs H1); auto.
Qed.

Lemma finditer_absent (l s : str) (rs : list regex) (n : nat) :
  contains l s = false -> finditer_from (seq (lits l :: rs)) s n = [].
Proof.
  revert n; induction s as [|c s IH]; intros n; cbn [contains finditer_from];
    [reflexivity|].
  intros H. apply orb_false_elim in H. destruct H as [H1 H2].
  destruct n; [|auto]. rewrite (re_match_absent _ _ rs H1). auto.
Qed.

(** X7: a block in which none of [(pin], [(rectangle], [(polyline] and
    [(extends] occurs never raises and gives the bare entry: no pins, no
    bounding box, no base, the block kept as the raw text. *)
Theorem X7_block_without_keywords (i block : str) :
  contains (s_ "(pin") block = false ->
  contains (s_ "(rectangle") block = false ->
  contains (s_ "(polyline") block = false ->
  contains (s_ "(extends") block = false ->
  parse_symbol_block i block = Some (Sym.mk i [] None None block).
Proof.
  intros Hp Hr Hl He.
  unfold parse_symbol_block, extract_pins, extract_bbox, extract_extends,
    polyline_bbox, finditer.
  unfold pin_regex, rect_regex, polyline_regex, extends_regex.
  rewrite (finditer_absent _ _ _ 0 Hp), (re_search_absent _ _ _ Hr),
    (finditer_absent _ _ _ 0 Hl), (re_search_absent _ _ _ He).
  reflexivity.
Qed.

Lemma X7_block_without_keywords_witness :
  parse_symbol_block (s_ "R")
                     (s_ "(symbol " ++ quoted "R" ++ s_ " (in_bom yes))")
  = Some (Sym.mk (s_ "R") [] None None
                 (s_ "(symbol " ++ quoted "R" ++ s_ " (in_bom yes))")).
Proof.
  apply (X7_block_without_keywords
           (s_ "R") (s_ "(symbol " ++ quoted "R" ++ s_ " (in_bom yes))"));
    vm_compute; reflexivity.
Defined.

(** X8: the class of the coordinate groups admits texts that [float]
    refuses, such as [1.2.3] or a lone minus sign.  When one of the two
    coordinates of the pin of [pin_block] is such a text, the conversion
    raises and [parse_symbol_block] returns no entry at all. *)
Theorem X8_malformed_coordinate_raises (i X Y : str) :
  numeral X -> numeral Y ->
  float_of_string X = None \/ float_of_string Y = None ->
  parse_symbol_block i (pin_block X Y) = None.
Proof.
  intros HX HY H. unfold parse_symbol_block, extract_pins.
  rewrite (pin_block_pins X Y HX HY). cbn [mapM bind].
  unfold pin_of_match.
  change (group_text 2 _) with X. change (group_text 3 _) with Y.
  destruct H as [-> | H]; [reflexivity|].
  rewrite H. destruct (float_of_string X); reflexivity.
Qed.

Lemma X8_malformed_coordinate_raises_witness :
  parse_symbol_block (s_ "R") (pin_block (s_ "1") (s_ "1.2.3")) = None.
Proof.
  apply (X8_malformed_coordinate_raises (s_ "R") (s_ "1") (s_ "1.2.3")).
  - split; [discriminate|repeat constructor].
  - split; [discriminate|repeat constructor].
  - right. reflexivity.
Defined.

(** ** Field extraction: every field of a pin *)

Lemma exec_lazy_skip (R : Type) (p : ascii -> bool) (c : ascii) (s : str)
      (g : groups) (k : str -> groups -> option R) (x : R) :
  p c = true -> k (c :: s) g = None ->
  exec (StarLazy p) s g k = Some x ->
  exec (StarLazy p) (c :: s) g k = Some x.
Proof. intros Hp Hk H. cbn [exec] in *. simpl. rewrite Hk, Hp. exact H. Qed.

Lemma exec_opt_take (R : Type) (r : regex) (s : str) (g : groups)
      (k : str -> groups -> option R) (x : R) :
  exec r s g k = Some x -> exec (Opt r) s g k = Some x.
Proof. intros H. cbn [exec]. rewrite H. reflexivity. Qed.

Lemma exec_cat (R : Type) (r1 r2 : regex) (s : str) (g : groups)
      (k : str -> groups -> option R) :
  exec (Cat r1 r2) s g k = exec r1 s g (fun t g' => exec r2 t g' k).
Proof. reflexivity. Qed.

Lemma token_stops_space (t rest : str) : token t -> stops is_space (t ++ rest).
Proof.
  intros (Hne & Hall & _). destruct t as [|c t]; [congruence|]. simpl.
  inversion Hall; subst. unfold non_space in *. destruct (is_space c); [discriminate|reflexivity].
Qed.

Lemma re_search_no_open (r : regex) (t rest : str) :
  opens r -> no_open t -> re_search r (t ++ rest) = re_search r rest.
Proof.
  intros Ho Ht. induction Ht as [|c t Hc Ht IH]; [reflexivity|].
  cbn [app]. rewrite re_search_fail; [exact IH|]. apply Ho. exact Hc.
Qed.

Lemma finditer_no_open (r : regex) (t rest : str) :
  opens r -> no_open t ->
  finditer_from r (t ++ rest) 0 = finditer_from r rest 0.
Proof.
  intros Ho Ht. induction Ht as [|c t Hc Ht IH]; [reflexivity|].
  cbn [app]. rewrite finditer_fail; [exact IH|]. apply Ho. exact Hc.
Qed.

Lemma numeral_no_open (t : str) : numeral t -> no_open t.
Proof.
  intros [_ H]. eapply Forall_impl; [|exact H].
  intros c Hc. apply is_num_not_open. exact Hc.
Qed.

Lemma pin_full_text_match (T X Y A N M : str) :
  token T -> numeral X -> numeral Y -> numeral A ->
  quotable N -> quotable M ->
  re_match pin_regex (pin_full_text T X Y A N M ++ s_ ")))") =
  Some (s_ ")))", [(6, M); (5, N); (4, A); (3, Y); (2, X); (1, T)]).
Proof.
  intros HT HX HY HA HN HM.
  pose proof HT as (? & ? & ?). pose proof HX as [? ?].
  pose proof HY as [? ?]. pose proof HA as [? ?].
  pose proof HN as (? & ? & ?). pose proof HM as (? & ? & ?).
  unfold re_match, pin_regex, pin_full_text. rewrite <- !app_assoc.
  rewrite exec_seq_cons, exec_lits.
  rewrite exec_seq_cons. apply exec_plus_max; tok.
  { apply token_stops_space; assumption. }
  rewrite exec_seq_cons. apply exec_grp_plus_max; tok; try assumption.
  rewrite exec_seq_cons. apply exec_plus_max; tok.
  rewrite exec_seq_cons. apply exec_plus_max; tok.
  rewrite exec_seq_cons. apply exec_star_max; tok.
  rewrite exec_seq_cons. apply exec_lazy_now.
  rewrite exec_seq_cons, exec_lits.
  rewrite exec_seq_cons. apply exec_plus_max; tok.
  { apply numeral_stops_space; assumption. }
  rewrite exec_seq_cons. apply exec_grp_plus_max; tok; try assumption.
  rewrite exec_seq_cons. apply exec_plus_max; tok.
  { apply numeral_stops_space; assumption. }
  rewrite exec_seq_cons. apply exec_grp_plus_max; tok; try assumption.
  rewrite exec_seq_cons. apply exec_opt_take. rewrite exec_cat.
  apply exec_plus_max; tok.
  { apply numeral_stops_space; assumption. }
  apply exec_grp_plus_max; tok; try assumption.
  rewrite exec_seq_cons. apply exec_lit.
  rewrite exec_seq_cons. apply exec_lazy_skip; [reflexivity|reflexivity|].
  apply exec_lazy_now. cbn [app].
  rewrite exec_seq_cons, exec_lits.
  rewrite exec_seq_cons. apply exec_plus_max; tok.
  rewrite exec_seq_cons. apply exec_lit. cbn [app].
  rewrite exec_seq_cons. apply exec_grp_plus_max; tok; try assumption.
  rewrite exec_seq_cons. apply exec_lit. cbn [app].
  rewrite exec_seq_cons. apply exec_lit.
  rewrite exec_seq_cons. apply exec_lazy_skip; [reflexivity|reflexivity|].
  apply exec_lazy_now. cbn [app].
  rewrite exec_seq_cons, exec_lits.
  rewrite exec_seq_cons. apply exec_plus_max; tok.
  rewrite exec_seq_cons. apply exec_lit. cbn [app].
  rewrite exec_seq_cons. apply exec_grp_plus_max; tok; assumption.
Qed.

Ltac spell_full :=
  unfold pin_full_block, pin_full_text, quoted;
  repeat first [ rewrite <- app_assoc
               | progress (cbn [s_ list_ascii_of_string app]) ].

Ltac skip_search_open :=
  repeat first
    [ rewrite re_search_fail by reflexivity
    | rewrite re_search_no_open
        by (auto using opens_rect, opens_extends, numeral_no_open) ].

Ltac skip_iter_open :=
  repeat first
    [ rewrite finditer_fail by reflexivity
    | rewrite finditer_no_open
        by (auto using opens_pin, opens_polyline, numeral_no_open) ].

Lemma pin_full_block_pins (T X Y A N M : str) :
  token T -> numeral X -> numeral Y -> numeral A ->
  quotable N -> quotable M ->
  finditer pin_regex (pin_full_block T X Y A N M) =
  [[(6, M); (5, N); (4, A); (3, Y); (2, X); (1, T)]].
Proof.
  intros HT HX HY HA HN HM. unfold finditer, pin_full_block.
  cbn [quoted s_ list_ascii_of_string app].
  skip_iter_open.
  change (finditer_from pin_regex
            (pin_full_text T X Y A N M ++ s_ ")))") 0 =
          [[(6, M); (5, N); (4, A); (3, Y); (2, X); (1, T)]]).
  rewrite (finditer_here pin_regex (pin_full_text T X Y A N M) (s_ ")))")
             [(6, M); (5, N); (4, A); (3, Y); (2, X); (1, T)]).
  - reflexivity.
  - discriminate.
  - apply pin_full_text_match; assumption.
Qed.

Lemma pin_full_block_plain (T X Y A N M : str) :
  token T -> numeral X -> numeral Y -> numeral A ->
  quotable N -> quotable M ->
  re_search rect_regex (pin_full_block T X Y A N M) = None /\
  re_search extends_regex (pin_full_block T X Y A N M) = None /\
  finditer polyline_regex (pin_full_block T X Y A N M) = [].
Proof.
  intros (_ & _ & HT) HX HY HA (_ & _ & HN) (_ & _ & HM).
  unfold finditer. repeat split.
  - spell_full. skip_search_open. reflexivity.
  - spell_full. skip_search_open. reflexivity.
  - spell_full. skip_iter_open. reflexivity.
Qed.

(** X9: the block with one pin declared with the electrical type [T], the
    position [(at X Y A)], the name [N] and the number [M] yields one pin
    that holds [T], [N] and [M] as they are written, [x = float(X)],
    [y = -float(Y)] and the orientation [float(A)]. *)
Theorem X9_pin_fields_round_trip (T X Y A N M : str) (vx vy va : float) :
  token T -> quotable N -> quotable M ->
  float_of_string X = Some vx -> float_of_string Y = Some vy ->
  float_of_string A = Some va ->
  parse_symbol_block (s_ "R") (pin_full_block T X Y A N M) =
  Some (Sym.mk (s_ "R") [Pin.mk T vx (fneg vy) (PyFloat va) N M]
               None None (pin_full_block T X Y A N M)).
Proof.
  intros HT HN HM FX FY FA.
  pose proof (float_of_string_numeral _ _ FX) as HX.
  pose proof (float_of_string_numeral _ _ FY) as HY.
  pose proof (float_of_string_numeral _ _ FA) as HA.
  destruct (pin_full_block_plain T X Y A N M HT HX HY HA HN HM)
    as (R1 & R2 & R3).
  unfold parse_symbol_block, extract_pins, extract_bbox, extract_extends,
    polyline_bbox.
  rewrite (pin_full_block_pins T X Y A N M HT HX HY HA HN HM), R1, R2, R3.
  cbn [mapM bind map fold_left].
  unfold pin_of_match.
  change (group_text 2 _) with X. change (group_text 3 _) with Y.
  change (group 4 _) with (Some A).
  rewrite FX, FY. cbn [bind].
  destruct HA as [HA _]. destruct A as [|a A']; [congruence|].
  rewrite FA. reflexivity.
Qed.

Lemma X9_pin_fields_round_trip_witness :
  parse_symbol_block
    (s_ "R")
    (pin_full_block (s_ "input") (s_ "1.5") (s_ "-2.5") (s_ "90")
                    (s_ "A") (s_ "2")) =
  Some (Sym.mk (s_ "R")
               [Pin.mk (s_ "input") (f_of "1.5") (fneg (f_of "-2.5"))
                       (PyFloat (f_of "90")) (s_ "A") (s_ "2")]
               None None
               (pin_full_block (s_ "input") (s_ "1.5") (s_ "-2.5") (s_ "90")
                               (s_ "A") (s_ "2"))).
Proof.
  apply (X9_pin_fields_round_trip
           (s_ "input") (s_ "1.5") (s_ "-2.5") (s_ "90") (s_ "A") (s_ "2")
           (f_of "1.5") (f_of "-2.5") (f_of "90"));
    try reflexivity;
    (split; [discriminate|split; repeat constructor; discriminate]).
Defined.

(** ** Field extraction: the points of a polyline *)

Lemma star_lazy_stop (R : Type) (p : ascii -> bool) (body rest : str)
      (K : str -> option R) (x : R) :
  Forall (fun c => p c = true) body ->
  (forall b1 c b2, body = b1 ++ c :: b2 -> K (c :: b2 ++ rest) = None) ->
  K rest = Some x -> star_lazy p (body ++ rest) K = Some x.
Proof.
  intros Hp Hf Hk. induction Hp as [|c b Hc Hp IH].
  - cbn [app]. destruct rest; cbn [star_lazy]; rewrite Hk; reflexivity.
  - cbn [app star_lazy]. rewrite (Hf [] c b eq_refl), Hc.
    apply IH. intros b1 c' b2 E. apply (Hf (c :: b1)). rewrite E. reflexivity.
Qed.

Lemma fails_within_split (R : Type) (k : str -> groups -> option R)
      (body rest : str) :
  fails_within R k body rest ->
  forall b1 c b2 g, body = b1 ++ c :: b2 -> k (c :: b2 ++ rest) g = None.
Proof.
  revert rest. induction body as [|a body IH]; intros rest H b1 c b2 g E.
  - destruct b1; discriminate.
  - destruct H as [H1 H2]. destruct b1 as [|a' b1]; cbn [app] in E.
    + injection E as -> ->. apply H1.
    + injection E as -> ->. apply (IH rest H2 b1 c b2 g eq_refl).
Qed.


Lemma fails_within_class (R : Type) (k : str -> groups -> option R)
      (P : ascii -> Prop) (t rest : str) :
  (forall c u g, P c -> k (c :: u) g = None) ->
  Forall P t -> fails_within R k t rest.
Proof.
  intros Hk Ht. induction Ht as [|c t Hc Ht IH]; cbn [fails_within]; auto.
Qed.


Lemma star_greedy_none (R : Type) (p : ascii -> bool) (t rest : str)
      (K : str -> option R) :
  Forall (fun c => p c = true) t -> stops p rest ->
  (forall u1 u2, t = u1 ++ u2 -> K (u2 ++ rest) = None) ->
  star_greedy p (t ++ rest) K = None.
Proof.
  intros Ht Hs Hf. induction Ht as [|c t Hc Ht IH].
  - cbn [app]. pose proof (Hf [] [] eq_refl) as H0. cbn [app] in H0.
    destruct rest as [|c rest]; cbn [star_greedy]; [exact H0|].
    cbn [stops] in Hs. rewrite Hs. exact H0.
  - cbn [app star_greedy]. rewrite Hc, IH.
    + apply (Hf [] (c :: t) eq_refl).
    + intros u1 u2 E. apply (Hf (c :: u1) u2). rewrite E. reflexivity.
Qed.

Lemma fails_after_split (R : Type) (k : str -> groups -> option R)
      (t rest : str) :
  fails_after R k t rest ->
  forall u1 u2 g, t = u1 ++ u2 -> k (u2 ++ rest) g = None.
Proof.
  induction t as [|c t IH]; intros [H1 H2] u1 u2 g E.
  - destruct u1; [|discriminate]. cbn [app] in E. subst u2. apply H1.
  - destruct u1 as [|c' u1]; cbn [app] in E.
    + subst u2. apply H1.
    + injection E as -> ->. apply (IH H2 u1 u2 g eq_refl).
Qed.

Lemma exec_plus_none (R : Type) (p : ascii -> bool) (c : ascii) (t rest : str)
      (g : groups) (k : str -> groups -> option R) :
  Forall (fun c => p c = true) t -> stops p rest ->
  fails_after R k t rest ->
  exec (Plus p) (c :: t ++ rest) g k = None.
Proof.
  intros Ht Hs Hf. cbn [exec]. destruct (p c); [|reflexivity].
  apply star_greedy_none; auto.
  intros u1 u2 E. eapply fails_after_split; eauto.
Qed.

Lemma exec_grp_plus_none (R : Type) (n : nat) (p : ascii -> bool) (c : ascii)
      (t rest : str) (g : groups) (k : str -> groups -> option R) :
  Forall (fun c => p c = true) t -> stops p rest ->
  fails_after R k t rest ->
  exec (Grp n (Plus p)) (c :: t ++ rest) g k = None.
Proof.
  intros Ht Hs Hf. cbn [exec]. destruct (p c); [|reflexivity].
  apply star_greedy_none; auto.
  intros u1 u2 E. eapply fails_after_split; eauto.
Qed.


Lemma is_num_not_close (c : ascii) : is_num c = true -> c <> ")"%char.
Proof. intros H ->. discriminate H. Qed.







Lemma finditer_fail_tl (r : regex) (s : str) :
  re_match r s = None -> finditer_from r s 0 = finditer_from r (tl s) 0.
Proof.
  intros H. destruct s as [|c s]; [reflexivity|].
  cbn [finditer_from tl]. rewrite H. reflexivity.
Qed.









(** ** Inheritance resolution: what is kept and what is inherited *)

Lemma kept_refl (e : Sym.t) : kept e e.
Proof. unfold kept. auto. Qed.

Lemma kept_inherit (base e e1 : Sym.t) :
  kept e e1 -> kept e (inherit base e1).
Proof.
  intros (H1 & H2 & H3 & H4 & H5). unfold kept, inherit.
  destruct e1 as [i ps b x r]; simpl in *.
  destruct ps, b; simpl; repeat split; auto; intros H.
  - specialize (H4 H). congruence.
  - specialize (H4 H). congruence.
  - specialize (H5 H). congruence.
  - specialize (H5 H). congruence.
Qed.

Lemma kept_resolve_entry (d : index) (e e1 : Sym.t) :
  kept e e1 -> kept e (resolve_entry d e1).
Proof.
  intros H. unfold resolve_entry.
  destruct (truthy (Sym.extends e1)); [|exact H].
  destruct (Sym.extends e1); [|exact H].
  destruct (dict_get s d); [|exact H].
  apply kept_inherit. exact H.
Qed.

Lemma fold_resolve_kept (l : list str) (d : index) (k : str) (e e1 : Sym.t) :
  dict_get k d = Some e1 -> kept e e1 ->
  exists e', dict_get k (fold_left resolve_step l d) = Some e' /\ kept e e'.
Proof.
  revert d e1; induction l as [|k' l IH]; intros d e1 G K; cbn [fold_left].
  - eauto.
  - rewrite resolve_step_entry.
    destruct (dict_get k' d) as [sym|] eqn:G'; [|eauto].
    destruct (str_eq_dec k k') as [<-|Hne].
    + apply (IH _ (resolve_entry d sym)).
      * apply dict_get_set_same.
      * rewrite G in G'. injection G' as <-.
        apply kept_resolve_entry. exact K.
    + apply (IH _ e1); [|exact K].
      rewrite dict_get_set_other by exact Hne. exact G.
Qed.

(** X11: [resolve_inheritance] neither adds, removes nor reorders
    entries, and it never overwrites: every entry keeps its identifier,
    its base and its raw text, and keeps the pins and the bounding box it
    already has. *)
Theorem X11_resolve_never_overwrites (d : index) (k : str) (e : Sym.t) :
  dict_get k d = Some e ->
  keys (resolve_inheritance d) = keys d /\
  exists e', dict_get k (resolve_inheritance d) = Some e' /\ kept e e'.
Proof.
  intros G. split; [apply keys_resolve|].
  apply (fold_resolve_kept _ _ _ e e G). apply kept_refl.
Qed.

Lemma X11_resolve_never_overwrites_witness :
  keys (resolve_inheritance chain_base_first) = keys chain_base_first /\
  exists e', dict_get (s_ "C") (resolve_inheritance chain_base_first)
             = Some e' /\ kept symC e'.
Proof.
  apply (X11_resolve_never_overwrites chain_base_first (s_ "C") symC).
  reflexivity.
Defined.

Lemma bbox_inherit_unset (base e : Sym.t) :
  Sym.bbox e = None -> Sym.bbox (inherit base e) = Sym.bbox base.
Proof.
  unfold inherit. destruct e as [i ps b x r]; simpl.
  intros ->. destruct ps; reflexivity.
Qed.

(** X12: one level of inheritance always works, in whatever order the
    entries are listed: an entry without pins whose base is in the index
    and has pins ends with the pins of the base, and an entry without
    bounding box whose base has one ends with the box of the base. *)
Theorem X12_inherits_from_base
  (d : index) (a b : str) (eA eB : Sym.t) :
  NoDup (keys d) ->
  dict_get a d = Some eA ->
  Sym.extends eA = Some b -> truthy (Some b) = true ->
  dict_get b d = Some eB ->
  exists eA',
    dict_get a (resolve_inheritance d) = Some eA' /\
    (Sym.pins eA = [] -> Sym.pins eB <> [] -> Sym.pins eA' = Sym.pins eB) /\
    (Sym.bbox eA = None -> Sym.bbox eB <> None ->
     Sym.bbox eA' = Sym.bbox eB).
Proof.
  intros Hnd Ga He Ht Gb.
  destruct (fold_resolve_kept (keys d) d b eB eB Gb (kept_refl eB))
    as (eB' & GB' & KB). fold (resolve_inheritance d) in GB'.
  destruct (split_at_key _ a d) as (d1 & v & d2 & -> & Hni).
  { eapply In_keys. apply dict_get_In. exact Ga. }
  rewrite dict_get_mid in Ga by exact Hni. injection Ga as ->.
  destruct (resolve_at _ _ _ _ Hnd) as (p1 & p2 & K1 & K2 & _ & HF).
  assert (Hbase : exists x, dict_get b (p1 ++ (a, eA) :: d2) = Some x /\
                            kept eB x).
  { rewrite dict_get_app. rewrite HF, dict_get_app in GB'.
    destruct (dict_get b p1) as [x|] eqn:G1.
    - exists x. split; [reflexivity|]. injection GB' as ->. exact KB.
    - exists eB. split; [|apply kept_refl].
      rewrite dict_get_app in Gb.
      rewrite (dict_get_same_keys p1 d1 b K1 G1) in Gb. exact Gb. }
  destruct Hbase as (x & Gx & (_ & _ & _ & Kp & Kb)).
  exists (resolve_entry (p1 ++ (a, eA) :: d2) eA). split; [|split].
  - rewrite HF. apply dict_get_mid. rewrite K1. exact Hni.
  - intros Hp Hq. unfold resolve_entry. rewrite He, Ht, Gx.
    rewrite (pins_inherit_empty _ _ Hp). auto.
  - intros Hp Hq. unfold resolve_entry. rewrite He, Ht, Gx.
    rewrite (bbox_inherit_unset _ _ Hp). auto.
Qed.

Lemma X12_inherits_from_base_witness :
  exists eA',
    dict_get (s_ "B") (resolve_inheritance chain_base_last) = Some eA' /\
    (Sym.pins symB = [] -> Sym.pins symC <> [] ->
     Sym.pins eA' = Sym.pins symC) /\
    (Sym.bbox symB = None -> Sym.bbox symC <> None ->
     Sym.bbox eA' = Sym.bbox symC).
Proof.
  apply (X12_inherits_from_base chain_base_last (s_ "B") (s_ "C")
                                symB symC).
  - solve_nodup.
  - reflexivity.
  - reflexivity.
  - reflexivity.
  - reflexivity.
Defined.

(** ** The merge loop and [main] *)

Lemma dict_update_pick (x : str) (d table : index) :
  NoDup (keys table) ->
  dict_get x (dict_update d table) = pick x (dict_get x d) table.
Proof.
  intros Hnd. unfold pick.
  destruct (dict_get x table) as [e|] eqn:G.
  - apply dict_update_get; assumption.
  - apply dict_update_get_other. apply dict_get_None. exact G.
Qed.

(** X13: the merged index is the union of the indexes of the files, a later
    file winning over the earlier ones and over the index already there:
    under every identifier it holds the entry of the last file that
    defines it. *)
Theorem X13_merge_is_last_definition
  (contents : list str) (tables : list index) (all_symbols : index) :
  mapM parse_kicad_sym contents = Some tables ->
  exists merged,
    merge_files contents all_symbols = Some merged /\
    forall x,
      dict_get x merged = fold_left (pick x) tables (dict_get x all_symbols).
Proof.
  revert tables all_symbols.
  induction contents as [|c cs IH]; intros tables all_symbols;
    cbn [mapM merge_files].
  - intros [= <-]. exists all_symbols. split; reflexivity.
  - unfold bind at 1 3.
    destruct (parse_kicad_sym c) as [t|] eqn:P; [|discriminate].
    unfold bind. destruct (mapM parse_kicad_sym cs) as [ts|] eqn:M;
      [|discriminate].
    intros [= <-].
    destruct (IH ts (dict_update all_symbols t) eq_refl) as (m & Hm & Hx).
    exists m. split; [exact Hm|]. intros x. rewrite Hx. cbn [fold_left].
    rewrite dict_update_pick; [reflexivity|].
    eapply parse_kicad_sym_nodup. exact P.
Qed.

Lemma X13_merge_is_last_definition_witness :
  exists merged,
    merge_files [file1; file2] [] = Some merged /\
    forall x,
      dict_get x merged =
      fold_left (pick x)
                [[(s_ "X", entry_X "A")]; [(s_ "X", entry_X "B")]]
                (dict_get x []).
Proof.
  apply (X13_merge_is_last_definition
           [file1; file2]
           [[(s_ "X", entry_X "A")]; [(s_ "X", entry_X "B")]] []).
  vm_compute. reflexivity.
Defined.


(** ** File enumeration *)

Lemma find_fold (base : str) (files acc : list str) :
  fold_left
    (fun sym_files f =>
       if endswith kicad_ext f then
         let category := str_replace kicad_ext [] f in
         if is_allowed category
         then sym_files ++ [path_join base f]
         else sym_files
       else sym_files)
    files acc
  = acc ++ map (path_join base) (filter selected files).
Proof.
  revert acc; induction files as [|f files IH]; intros acc; cbn [fold_left].
  - cbn. rewrite app_nil_r. reflexivity.
  - rewrite IH. cbn [filter]. unfold selected at 2.
    destruct (endswith kicad_ext f); cbn [andb]; [|reflexivity].
    cbv zeta. destruct (is_allowed (str_replace kicad_ext [] f));
      [|reflexivity].
    cbn [map]. rewrite <- app_assoc. reflexivity.
Qed.

(** The files found are the selected names, in the order of the listing,
    each joined to the directory. *)
Lemma find_sym_files_selected (files : list str) (base : str) :
  find_sym_files (Some files) base
  = map (path_join base) (filter selected files).
Proof. unfold find_sym_files. apply find_fold. Qed.

Lemma endswith_app (suffix c : str) : endswith suffix (c ++ suffix) = true.
Proof.
  unfold endswith. rewrite length_app.
  replace (length c + length suffix - length suffix) with (length c) by lia.
  rewrite skipn_app, Nat.sub_diag, skipn_all. cbn [skipn app].
  destruct (str_eq_dec suffix suffix); [|congruence].
  rewrite andb_true_r. apply Nat.leb_le. lia.
Qed.

Lemma replace_skip (old new a rest : str) :
  replace_from old new (a ++ rest) (length a) = replace_from old new rest 0.
Proof.
  induction a as [|c a IH]; [reflexivity|].
  cbn [app length replace_from]. exact IH.
Qed.

Lemma remove_ext_no_dot (c rest : str) :
  no_dot c ->
  replace_from kicad_ext [] (c ++ rest) 0
  = c ++ replace_from kicad_ext [] rest 0.
Proof.
  intros Hc. induction Hc as [|a c Ha Hc IH]; [reflexivity|].
  cbn [app replace_from].
  assert (E : startswith kicad_ext (a :: c ++ rest) = false).
  { change (startswith kicad_ext (a :: c ++ rest))
      with (Ascii.eqb "." a && startswith (s_ "kicad_sym") (c ++ rest)).
    destruct (Ascii.eqb "." a) eqn:E; [|reflexivity].
    apply Ascii.eqb_eq in E. congruence. }
  rewrite E, IH. reflexivity.
Qed.

Lemma remove_ext_here (rest : str) :
  replace_from kicad_ext [] (kicad_ext ++ rest) 0
  = replace_from kicad_ext [] rest 0.
Proof.
  change (kicad_ext ++ rest) with ("."%char :: s_ "kicad_sym" ++ rest).
  cbn [replace_from].
  change ("."%char :: s_ "kicad_sym" ++ rest) with (kicad_ext ++ rest).
  rewrite (startswith_app kicad_ext kicad_ext rest eq_refl).
  cbn [app]. apply (replace_skip kicad_ext [] (s_ "kicad_sym") rest).
Qed.

Lemma remove_ext_plain (c : str) :
  no_dot c -> str_replace kicad_ext [] (c ++ kicad_ext) = c.
Proof.
  intros Hc. unfold str_replace.
  rewrite (remove_ext_no_dot _ _ Hc).
  rewrite <- (app_nil_r kicad_ext), remove_ext_here. apply app_nil_r.
Qed.

(** X15: a file named by a category without point followed by the
    extension [.kicad_sym] is taken exactly when the category is one of
    [ALLOWED_DIRS]; the files before and after it in the listing are found
    as they are without it, in the order of the listing. *)
Theorem X15_plain_name_taken_iff_allowed
  (l1 l2 : list str) (c base : str) :
  no_dot c ->
  find_sym_files (Some (l1 ++ (c ++ kicad_ext) :: l2)) base
  = find_sym_files (Some l1) base
    ++ (if is_allowed c then [path_join base (c ++ kicad_ext)] else [])
    ++ find_sym_files (Some l2) base.
Proof.
  intros Hc. rewrite !find_sym_files_selected.
  rewrite filter_app, map_app. cbn [filter]. unfold selected at 2.
  rewrite endswith_app, (remove_ext_plain _ Hc). cbn [andb].
  destruct (is_allowed c); reflexivity.
Qed.

Lemma X15_plain_name_taken_iff_allowed_witness :
  find_sym_files
    (Some ([s_ "README.md"] ++ (s_ "Device" ++ kicad_ext)
             :: [s_ "Audio.kicad_sym"])) SYMBOLS_DIR
  = find_sym_files (Some [s_ "README.md"]) SYMBOLS_DIR
    ++ (if is_allowed (s_ "Device")
        then [path_join SYMBOLS_DIR (s_ "Device" ++ kicad_ext)] else [])
    ++ find_sym_files (Some [s_ "Audio.kicad_sym"]) SYMBOLS_DIR.
Proof.
  apply (X15_plain_name_taken_iff_allowed
           [s_ "README.md"] [s_ "Audio.kicad_sym"] (s_ "Device") SYMBOLS_DIR).
  repeat constructor; discriminate.
Defined.

(** X16: [replace] removes every occurrence of [.kicad_sym], not the
    extension alone: a file name that spells an allowed category around an
    extra [.kicad_sym] is taken as well. *)
Theorem X16_inner_extension_removed_too
  (files : list str) (c1 c2 base : str) :
  no_dot c1 -> no_dot c2 -> is_allowed (c1 ++ c2) = true ->
  In (c1 ++ kicad_ext ++ c2 ++ kicad_ext) files ->
  In (path_join base (c1 ++ kicad_ext ++ c2 ++ kicad_ext))
     (find_sym_files (Some files) base).
Proof.
  intros H1 H2 Ha Hin. rewrite find_sym_files_selected.
  apply in_map. apply filter_In. split; [exact Hin|].
  unfold selected. apply andb_true_intro. split.
  - replace (c1 ++ kicad_ext ++ c2 ++ kicad_ext)
      with ((c1 ++ kicad_ext ++ c2) ++ kicad_ext)
      by (rewrite <- !app_assoc; reflexivity).
    apply endswith_app.
  - unfold str_replace.
    rewrite (remove_ext_no_dot _ _ H1), remove_ext_here.
    fold (str_replace kicad_ext [] (c2 ++ kicad_ext)).
    rewrite (remove_ext_plain _ H2). exact Ha.
Qed.

Lemma X16_inner_extension_removed_too_witness :
  In (path_join SYMBOLS_DIR
                (s_ "De" ++ kicad_ext ++ s_ "vice" ++ kicad_ext))
     (find_sym_files
        (Some [s_ "De" ++ kicad_ext ++ s_ "vice" ++ kicad_ext])
        SYMBOLS_DIR).
Proof.
  apply (X16_inner_extension_removed_too
           [s_ "De" ++ kicad_ext ++ s_ "vice" ++ kicad_ext]
           (s_ "De") (s_ "vice") SYMBOLS_DIR).
  - repeat constructor; discriminate.
  - repeat constructor; discriminate.
  - reflexivity.
  - left. reflexivity.
Defined.

(** ** Field extraction: what the pin pattern requires *)

Lemma star_lazy_none (R : Type) (p : ascii -> bool) (body : str)
      (K : str -> option R) :
  (forall b1 b2, body = b1 ++ b2 -> K b2 = None) ->
  star_lazy p body K = None.
Proof.
  induction body as [|c b IH]; intros Hf; cbn [star_lazy].
  - rewrite (Hf [] [] eq_refl). reflexivity.
  - rewrite (Hf [] (c :: b) eq_refl). destruct (p c); [|reflexivity].
    apply IH. intros b1 b2 E. apply (Hf (c :: b1) b2). rewrite E. reflexivity.
Qed.

Lemma exec_lazy_none (R : Type) (p : ascii -> bool) (body : str) (g : groups)
      (k : str -> groups -> option R) :
  fails_after R k body [] ->
  exec (StarLazy p) body g k = None.
Proof.
  intros Hf. cbn [exec]. apply star_lazy_none.
  intros b1 b2 E. rewrite <- (app_nil_r b2).
  eapply fails_after_split; eauto.
Qed.

Lemma exec_star_none (R : Type) (p : ascii -> bool) (t rest : str) (g : groups)
      (k : str -> groups -> option R) :
  Forall (fun c => p c = true) t -> stops p rest ->
  fails_after R k t rest ->
  exec (Star p) (t ++ rest) g k = None.
Proof.
  intros Ht Hs Hf. cbn [exec]. apply star_greedy_none; auto.
  intros u1 u2 E. eapply fails_after_split; eauto.
Qed.

Lemma fails_after_app (R : Type) (k : str -> groups -> option R)
      (t1 t2 rest : str) :
  fails_within R k t1 (t2 ++ rest) -> fails_after R k t2 rest ->
  fails_after R k (t1 ++ t2) rest.
Proof.
  intros H1 H2. induction t1 as [|c t1 IH]; cbn [app] in *; [exact H2|].
  destruct H1 as [Hc H1]. cbn [fails_after]. split; [|auto].
  intros g. cbn [app]. rewrite <- app_assoc. apply Hc.
Qed.

Lemma at_fails_no_open (R : Type) (rs : list regex)
      (k : str -> groups -> option R) (c : ascii) (u : str) (g : groups) :
  is_num c = true -> exec (seq (lits (s_ "(at") :: rs)) (c :: u) g k = None.
Proof.
  intros H. cbn [seq fold_right exec lits s_ list_ascii_of_string].
  destruct (Ascii.eqb c "(") eqn:E; [|reflexivity].
  apply Ascii.eqb_eq in E. subst c. discriminate H.
Qed.

(** No position of the text after the first [(at] starts another one. *)
Lemma no_at_in_tail (X Y : str) (rs : list regex) :
  numeral X -> numeral Y ->
  fails_after _ (fun t g => exec (seq (lits (s_ "(at") :: rs)) t g
                                 (fun t g => Some (t, g)))
              (bare_tail X Y) [].
Proof.
  intros [_ HX] [_ HY]. unfold bare_tail.
  apply fails_after_app.
  { apply (fails_within_class _ _ (fun c => is_num c = true));
      [intros; apply at_fails_no_open; assumption|assumption]. }
  apply (fails_after_app _ _ (s_ " ")).
  { cbn [s_ list_ascii_of_string fails_within].
    repeat split; intros; reflexivity. }
  apply fails_after_app.
  { apply (fails_within_class _ _ (fun c => is_num c = true));
      [intros; apply at_fails_no_open; assumption|assumption]. }
  cbn [quoted s_ list_ascii_of_string app fails_after].
  repeat split; intros; reflexivity.
Qed.

Ltac concrete_fails :=
  cbn [s_ list_ascii_of_string fails_within app];
  repeat split; intros; reflexivity.

Ltac lazy_none :=
  rewrite exec_seq_cons; apply exec_lazy_none;
  repeat (apply fails_after_app; [concrete_fails|]);
  apply no_at_in_tail; assumption.

Lemma bare_pin_no_match (X Y : str) :
  numeral X -> numeral Y ->
  re_match pin_regex
           (s_ "(pin" ++ s_ " " ++ s_ "passive" ++ s_ " " ++ s_ "(at"
               ++ s_ " " ++ bare_tail X Y) = None.
Proof.
  intros HX HY. unfold re_match, pin_regex.
  rewrite exec_seq_cons, exec_lits. rewrite exec_seq_cons.
  apply (exec_plus_none _ is_space " " []); [constructor|reflexivity|].
  cbn [fails_after app]. split; [|exact I]. intros g1.
  rewrite exec_seq_cons.
  apply (exec_grp_plus_none _ 1 non_space "p" (s_ "assive"));
    [repeat constructor|reflexivity|].
  cbn [s_ list_ascii_of_string fails_after app].
  repeat split; intros g2; try reflexivity.
  rewrite exec_seq_cons.
  apply (exec_plus_none _ is_space " " []); [constructor|reflexivity|].
  cbn [fails_after app]. split; [|exact I]. intros g3.
  rewrite exec_seq_cons.
  apply (exec_plus_none _ non_space "(" (s_ "at"));
    [repeat constructor|reflexivity|].
  cbn [s_ list_ascii_of_string fails_after app].
  repeat split; intros g4.
  - rewrite exec_seq_cons.
    apply (exec_star_none _ is_space []); [constructor|reflexivity|].
    cbn [fails_after app]. split; [|exact I]. intros g5.
    change ("a"%char :: "t"%char :: " "%char :: bare_tail X Y)
      with (s_ "at " ++ bare_tail X Y).
    lazy_none.
  - rewrite exec_seq_cons.
    apply (exec_star_none _ is_space []); [constructor|reflexivity|].
    cbn [fails_after app]. split; [|exact I]. intros g5.
    change ("t"%char :: " "%char :: bare_tail X Y)
      with (s_ "t " ++ bare_tail X Y).
    lazy_none.
  - rewrite exec_seq_cons.
    apply (exec_star_none _ is_space (s_ " ") (bare_tail X Y));
      [repeat constructor|apply numeral_stops_space; assumption|].
    cbn [s_ list_ascii_of_string fails_after app].
    repeat split; intros g5.
    + change (" "%char :: bare_tail X Y) with (s_ " " ++ bare_tail X Y).
      lazy_none.
    + lazy_none.
Qed.

Ltac spell_bare :=
  unfold bare_pin_block, bare_tail, quoted;
  repeat first [ rewrite <- app_assoc
               | progress (cbn [s_ list_ascii_of_string app]) ].

Lemma bare_pin_block_pins (X Y : str) :
  numeral X -> numeral Y -> finditer pin_regex (bare_pin_block X Y) = [].
Proof.
  intros HX HY. unfold finditer, bare_pin_block.
  cbn [quoted s_ list_ascii_of_string app].
  repeat rewrite finditer_fail by reflexivity.
  rewrite finditer_fail_tl
    by (exact (bare_pin_no_match X Y HX HY)).
  destruct HX as [_ HX]. destruct HY as [_ HY].
  unfold bare_tail, quoted.
  repeat first [ rewrite <- app_assoc
               | progress (cbn [s_ list_ascii_of_string app tl]) ].
  skip_iter. reflexivity.
Qed.

Lemma bare_pin_block_plain (X Y : str) :
  numeral X -> numeral Y ->
  re_search rect_regex (bare_pin_block X Y) = None /\
  re_search extends_regex (bare_pin_block X Y) = None /\
  finditer polyline_regex (bare_pin_block X Y) = [].
Proof.
  intros [_ HX] [_ HY]. unfold finditer. repeat split.
  - spell_bare. skip_search. reflexivity.
  - spell_bare. skip_search. reflexivity.
  - spell_bare. skip_iter. reflexivity.
Qed.

(** X17: the pin pattern asks for two tokens between [(pin] and the
    position.  A pin declared with the electrical type alone, as in
    [(pin passive (at X Y) ...)], matches at no position, under no
    backtracking: the block yields an entry without pins. *)
Theorem X17_single_token_pin_not_extracted (X Y : str) :
  numeral X -> numeral Y ->
  parse_symbol_block (s_ "R") (bare_pin_block X Y) =
  Some (Sym.mk (s_ "R") [] None None (bare_pin_block X Y)).
Proof.
  intros HX HY.
  destruct (bare_pin_block_plain X Y HX HY) as (R1 & R2 & R3).
  unfold parse_symbol_block, extract_pins, extract_bbox, extract_extends,
    polyline_bbox.
  rewrite (bare_pin_block_pins X Y HX HY), R1, R2, R3. reflexivity.
Qed.

Lemma X17_single_token_pin_not_extracted_witness :
  parse_symbol_block (s_ "R") (bare_pin_block (s_ "0") (s_ "5")) =
  Some (Sym.mk (s_ "R") [] None None (bare_pin_block (s_ "0") (s_ "5"))).
Proof.
  apply (X17_single_token_pin_not_extracted (s_ "0") (s_ "5"));
    (split; [discriminate|repeat constructor]).
Defined.

(** ** The cut of a block and its identifier *)

(** X18: where the inner loop of [parse_kicad_sym] stops, and whether it
    stops by [break], depends on nothing but which characters are opening
    and which are closing parentheses.  A double quote is a character like
    any other: a parenthesis inside a quoted text counts. *)
Theorem X18_cut_depends_on_parentheses_only (s s' : str) (depth : Z) :
  map paren_class s = map paren_class s' ->
  block_end s depth = block_end s' depth /\ closes s depth = closes s' depth.
Proof.
  revert s' depth; induction s as [|c s IH]; intros [|c' s'] depth E;
    try discriminate; [split; reflexivity|].
  cbn [map] in E. injection E as Ec E.
  cbn [block_end closes]. unfold paren_class in Ec.
  destruct (Ascii.eqb c "("), (Ascii.eqb c' "("); try discriminate;
    try (destruct (Ascii.eqb c ")"); discriminate);
    try (destruct (Ascii.eqb c' ")"); discriminate).
  - destruct (IH s' (depth + 1)%Z E) as [-> ->]. split; reflexivity.
  - destruct (Ascii.eqb c ")"), (Ascii.eqb c' ")"); try discriminate.
    + destruct (depth - 1 =? 0)%Z; [split; reflexivity|].
      destruct (IH s' (depth - 1)%Z E) as [-> ->]. split; reflexivity.
    + destruct (IH s' depth E) as [-> ->]. split; reflexivity.
Qed.

Lemma X18_cut_depends_on_parentheses_only_witness :
  block_end (s_ "(symbol " ++ quoted "a)b" ++ s_ ")") 0 =
  block_end (s_ "(symbol xa)bx)") 0 /\
  closes (s_ "(symbol " ++ quoted "a)b" ++ s_ ")") 0 =
  closes (s_ "(symbol xa)bx)") 0.
Proof.
  apply (X18_cut_depends_on_parentheses_only
           (s_ "(symbol " ++ quoted "a)b" ++ s_ ")") (s_ "(symbol xa)bx)") 0).
  reflexivity.
Defined.

Lemma blank_not_quote (c : ascii) : is_space c = true -> c <> dq.
Proof. intros H ->. discriminate H. Qed.

Lemma symbol_id_found (W I rest : str) :
  blank W -> I <> [] -> Forall (fun c => non_quote c = true) I ->
  symbol_id_of (s_ "(symbol" ++ W ++ dq :: I ++ dq :: rest) = Some I.
Proof.
  intros [HW1 HW2] HI1 HI2. unfold symbol_id_of.
  assert (E : re_match symbol_id_regex
                (s_ "(symbol" ++ W ++ dq :: I ++ dq :: rest)
              = Some (rest, [(1, I)])).
  { unfold re_match, symbol_id_regex.
    rewrite exec_seq_cons, exec_lits.
    rewrite exec_seq_cons.
    apply exec_plus_max; [assumption|assumption|reflexivity|].
    rewrite exec_seq_cons. apply exec_lit.
    rewrite exec_seq_cons.
    apply exec_grp_plus_max; [assumption|assumption|reflexivity|].
    rewrite exec_seq_cons. apply exec_lit. reflexivity. }
  rewrite E. reflexivity.
Qed.

Lemma symbol_id_missing (W : str) (c : ascii) (rest : str) :
  blank W -> is_space c = false -> c <> dq ->
  symbol_id_of (s_ "(symbol" ++ W ++ c :: rest) = None.
Proof.
  intros [HW1 HW2] Hc Hq. unfold symbol_id_of.
  assert (E : re_match symbol_id_regex (s_ "(symbol" ++ W ++ c :: rest)
              = None).
  { unfold re_match, symbol_id_regex.
    rewrite exec_seq_cons, exec_lits. rewrite exec_seq_cons.
    destruct W as [|w W]; [congruence|]. inversion HW2; subst. cbn [app].
    apply exec_plus_none; [assumption|exact Hc|].
    assert (F : forall (a : ascii) u g,
               a <> dq ->
               exec (seq [Lit dq; Grp 1 (Plus non_quote); Lit dq]) (a :: u) g
                    (fun t g => Some (t, g)) = None).
    { intros a u g Ha. cbn [seq fold_right exec].
      destruct (Ascii.eqb a dq) eqn:E; [|reflexivity].
      apply Ascii.eqb_eq in E. congruence. }
    clear - H2 Hq F. induction H2 as [|a W Ha HW IH]; cbn [fails_after app].
    - split; [|exact I]. intros g. apply F. exact Hq.
    - split; [|exact IH]. intros g. apply F. apply blank_not_quote.
      exact Ha. }
  rewrite E. reflexivity.
Qed.

(** X19: the identifier of a block is the quoted text that follows the
    marker and a run of white space, whatever comes after it; when
    anything but a double quote follows the white space, as in
    [(symbol R ...)], the block has no identifier. *)
Theorem X19_identifier_is_leading_quoted_text (W rest : str) :
  blank W ->
  (forall I,
      I <> [] -> Forall (fun c => non_quote c = true) I ->
      symbol_id_of (s_ "(symbol" ++ W ++ dq :: I ++ dq :: rest) = Some I) /\
  (forall c,
      is_space c = false -> c <> dq ->
      symbol_id_of (s_ "(symbol" ++ W ++ c :: rest) = None).
Proof.
  intros HW. split.
  - intros I H1 H2. apply symbol_id_found; assumption.
  - intros c H1 H2. apply symbol_id_missing; assumption.
Qed.

Lemma X19_identifier_is_leading_quoted_text_witness :
  symbol_id_of (s_ "(symbol" ++ s_ " " ++ dq :: s_ "R" ++ dq :: s_ ")")
  = Some (s_ "R") /\
  symbol_id_of (s_ "(symbol" ++ s_ " " ++ "R"%char :: s_ ")") = None.
Proof.
  destruct (X19_identifier_is_leading_quoted_text (s_ " ") (s_ ")"))
    as [H1 H2].
  - split; [discriminate|repeat constructor].
  - split.
    + apply (H1 (s_ "R")); [discriminate|repeat constructor].
    + apply (H2 "R"%char); [reflexivity|discriminate].
Defined.

(** ** The base reference *)

Lemma extends_text_match (B : str) :
  quotable B ->
  re_match extends_regex
           ((s_ "(extends" ++ s_ " " ++ [dq] ++ B ++ [dq] ++ s_ ")")
              ++ s_ ")") =
  Some (s_ ")", [(1, B)]).
Proof.
  intros (H1 & H2 & _). unfold re_match, extends_regex.
  rewrite <- !app_assoc.
  rewrite exec_seq_cons, exec_lits.
  rewrite exec_seq_cons. apply exec_plus_max; tok.
  rewrite exec_seq_cons. apply exec_lit. cbn [app].
  rewrite exec_seq_cons. apply exec_grp_plus_max; tok; assumption.
Qed.

Ltac spell_ext :=
  unfold extends_block, quoted;
  repeat first [ rewrite <- app_assoc
               | progress (cbn [s_ list_ascii_of_string app]) ].

(** X20: a block that names a base [B] gives an entry whose [extends] is
    [B], with no pins and no bounding box of its own: the text between the
    quotes is taken as it is. *)
Theorem X20_extends_round_trip (B : str) :
  quotable B ->
  parse_symbol_block (s_ "R") (extends_block B) =
  Some (Sym.mk (s_ "R") [] None (Some B) (extends_block B)).
Proof.
  intros HB. pose proof HB as (_ & _ & HO).
  assert (P : finditer pin_regex (extends_block B) = []).
  { unfold finditer. spell_ext. skip_iter_open. reflexivity. }
  assert (L : finditer polyline_regex (extends_block B) = []).
  { unfold finditer. spell_ext. skip_iter_open. reflexivity. }
  assert (R : re_search rect_regex (extends_block B) = None).
  { spell_ext. skip_search_open. reflexivity. }
  assert (E : re_search extends_regex (extends_block B)
              = Some (s_ ")", [(1, B)])).
  { unfold extends_block. cbn [quoted s_ list_ascii_of_string app].
    repeat rewrite re_search_fail by reflexivity.
    apply re_search_here. apply (extends_text_match B HB). }
  unfold parse_symbol_block, extract_pins, extract_bbox, extract_extends,
    polyline_bbox.
  rewrite P, L, R, E. reflexivity.
Qed.

Lemma X20_extends_round_trip_witness :
  parse_symbol_block (s_ "R") (extends_block (s_ "R_base")) =
  Some (Sym.mk (s_ "R") [] None (Some (s_ "R_base"))
               (extends_block (s_ "R_base"))).
Proof.
  apply (X20_extends_round_trip (s_ "R_base")).
  split; [discriminate|]. split; repeat constructor; discriminate.
Defined.

(** ** The order of the index *)















(** * Pin declarations with two words in front of the position *)

(** ** Where the pin pattern can match *)

Lemma startswith_after (l u r : str) :
  ~ In "("%char l -> startswith l u = false ->
  startswith l (u ++ "("%char :: r) = false.
Proof.
  revert u; induction l as [|b l IH]; intros u Hl H.
  - destruct u; discriminate H.
  - destruct u as [|c u]; cbn [app startswith] in *.
    + destruct (Ascii.eqb b "(") eqn:E; [|reflexivity].
      apply Ascii.eqb_eq in E. exfalso. apply Hl. left. exact E.
    + destruct (Ascii.eqb b c); [|reflexivity]. cbn [andb] in *.
      apply IH; [|exact H]. intros Hin. apply Hl. right. exact Hin.
Qed.

Lemma startswith_open_after (l u r : str) (c : ascii) :
  ~ In "("%char l -> startswith ("("%char :: l) (c :: u) = false ->
  startswith ("("%char :: l) (c :: u ++ "("%char :: r) = false.
Proof.
  intros Hl H. cbn [startswith] in *.
  destruct (Ascii.eqb "(" c); [|reflexivity]. cbn [andb] in *.
  apply startswith_after; assumption.
Qed.

Lemma pin_head_none (t : str) :
  pin_head t = false -> re_match pin_regex t = None.
Proof.
  unfold pin_head, re_match, pin_regex. intros H.
  destruct (startswith (s_ "(pin") t) eqn:E.
  - destruct t as [|c0 [|c1 [|c2 [|c3 w]]]];
      cbn [startswith s_ list_ascii_of_string] in E;
      rewrite ?andb_false_r in E; try discriminate E.
    repeat (apply andb_prop in E; destruct E as [?E E]).
    repeat match goal with
           | H : Ascii.eqb _ _ = true |- _ => apply Ascii.eqb_eq in H
           end.
    subst. cbn [andb skipn] in H.
    rewrite exec_seq_cons.
    change ("("%char :: "p"%char :: "i"%char :: "n"%char :: w)
      with (s_ "(pin" ++ w).
    rewrite exec_lits. rewrite exec_seq_cons.
    destruct w as [|c w]; [reflexivity|]. cbn [exec]. rewrite H. reflexivity.
  - rewrite exec_seq_cons. apply exec_lits_absent. exact E.
Qed.

Lemma pin_head_after (c : ascii) (u r : str) :
  pin_head (c :: u) = false -> pin_head (c :: u ++ "("%char :: r) = false.
Proof.
  unfold pin_head.
  destruct u as [|c1 [|c2 [|c3 [|c4 u]]]];
    cbn [app startswith skipn s_ list_ascii_of_string];
    intros H;
    repeat match goal with
           | |- context [Ascii.eqb ?a ?b] =>
               destruct (Ascii.eqb a b) eqn:?; cbn [andb]
           end;
    try reflexivity; try discriminate; try exact H.
Qed.

Lemma finditer_gap (gap next : str) :
  pin_gap gap ->
  next = [] \/ (exists r, next = "("%char :: r) ->
  finditer_from pin_regex (gap ++ next) 0 = finditer_from pin_regex next 0.
Proof.
  intros Hg Hn. unfold pin_gap in Hg.
  induction gap as [|c gap IH]; [reflexivity|].
  cbn [has_pin_head] in Hg. apply orb_false_elim in Hg.
  destruct Hg as [H1 H2].
  cbn [app]. rewrite finditer_fail; [apply IH; exact H2|].
  apply pin_head_none.
  destruct Hn as [-> | [r ->]].
  - rewrite app_nil_r. exact H1.
  - apply pin_head_after. exact H1.
Qed.

Lemma fails_within_free (R : Type) (l : str) (rs : list regex)
      (k : str -> groups -> option R) (mid r : str) :
  ~ In "("%char l -> free ("("%char :: l) mid ->
  fails_within R
    (fun t g => exec (seq (lits ("("%char :: l) :: rs)) t g k)
    mid ("("%char :: r).
Proof.
  intros Hl Hm. unfold free in Hm.
  induction mid as [|c mid IH]; cbn [fails_within]; [exact I|].
  cbn [contains] in Hm. apply orb_false_elim in Hm. destruct Hm as [H1 H2].
  split; [|apply IH; exact H2].
  intros g. rewrite exec_seq_cons. apply exec_lits_absent.
  apply startswith_open_after; assumption.
Qed.

Lemma exec_lazy_over (R : Type) (body rest : str) (g : groups)
      (k : str -> groups -> option R) (x : R) :
  fails_within R k body rest ->
  k rest g = Some x ->
  exec (StarLazy any_char) (body ++ rest) g k = Some x.
Proof.
  intros Hf Hk. cbn [exec].
  apply star_lazy_stop.
  - apply Forall_forall. reflexivity.
  - intros b1 c b2 E. eapply fails_within_split; eauto.
  - exact Hk.
Qed.

Lemma exec_opt_skip (R : Type) (r : regex) (s : str) (g : groups)
      (k : str -> groups -> option R) :
  exec r s g k = None -> exec (Opt r) s g k = k s g.
Proof. intros H. cbn [exec]. rewrite H. reflexivity. Qed.

Lemma word_stops_space (t rest : str) : word t -> stops is_space (t ++ rest).
Proof.
  intros (Hne & Hall). destruct t as [|c t]; [congruence|]. simpl.
  inversion Hall; subst. unfold non_space in *.
  destruct (is_space c); [discriminate|reflexivity].
Qed.

Ltac not_open := cbn; intuition discriminate.

Lemma decl_text_match (d : decl) (rest : str) :
  well_formed d ->
  re_match pin_regex (decl_text d ++ rest) = Some (rest, groups_of d).
Proof.
  destruct d as [T S X Y A m1 N m2 M].
  intros (HT & HS & HX & HY & HA & Hm1 & HN & Hm2 & HM).
  cbn [d_type d_style d_x d_y d_angle d_mid1 d_name d_mid2 d_number] in *.
  pose proof HT as (? & ?). pose proof HS as (? & ?).
  pose proof HX as [? ?]. pose proof HY as [? ?].
  pose proof HN as (? & ?). pose proof HM as (? & ?).
  unfold re_match, pin_regex, decl_text, groups_of.
  cbn [d_type d_style d_x d_y d_angle d_mid1 d_name d_mid2 d_number].
  rewrite <- !app_assoc.
  rewrite exec_seq_cons, exec_lits.
  rewrite exec_seq_cons. apply exec_plus_max; tok.
  { apply word_stops_space; assumption. }
  rewrite exec_seq_cons. apply exec_grp_plus_max; tok; try assumption.
  rewrite exec_seq_cons. apply exec_plus_max; tok.
  { apply word_stops_space; assumption. }
  rewrite exec_seq_cons. apply exec_plus_max; tok; try assumption.
  rewrite exec_seq_cons. apply exec_star_max; tok.
  rewrite exec_seq_cons. apply exec_lazy_now.
  rewrite exec_seq_cons, exec_lits.
  rewrite exec_seq_cons. apply exec_plus_max; tok.
  { apply numeral_stops_space; assumption. }
  rewrite exec_seq_cons. apply exec_grp_plus_max; tok; try assumption.
  rewrite exec_seq_cons. apply exec_plus_max; tok.
  { apply numeral_stops_space; assumption. }
  assert (Tail : forall g,
    exec (seq [Lit ")"; StarLazy any_char;
               lits (s_ "(name"); Plus is_space; Lit dq;
               Grp 5 (Plus non_quote); Lit dq; Lit ")";
               StarLazy any_char;
               lits (s_ "(number"); Plus is_space; Lit dq;
               Grp 6 (Plus non_quote); Lit dq])
         (s_ ")" ++ m1 ++ s_ "(name" ++ s_ " " ++ [dq] ++ N ++ [dq]
             ++ s_ ")" ++ m2 ++ s_ "(number" ++ s_ " " ++ [dq] ++ M
             ++ [dq] ++ rest) g
         (fun t g' => Some (t, g'))
    = Some (rest, (6, M) :: (5, N) :: g)).
  { intros g.
    rewrite exec_seq_cons. apply exec_lit.
    rewrite exec_seq_cons. apply exec_lazy_over.
    { apply (fails_within_free _ (s_ "name")); [not_open|exact Hm1]. }
    rewrite exec_seq_cons, exec_lits.
    rewrite exec_seq_cons. apply exec_plus_max; tok.
    rewrite exec_seq_cons. apply exec_lit. cbn [app].
    rewrite exec_seq_cons. apply exec_grp_plus_max; tok; try assumption.
    rewrite exec_seq_cons. apply exec_lit. cbn [app].
    rewrite exec_seq_cons. apply exec_lit.
    rewrite exec_seq_cons. apply exec_lazy_over.
    { apply (fails_within_free _ (s_ "number")); [not_open|exact Hm2]. }
    rewrite exec_seq_cons, exec_lits.
    rewrite exec_seq_cons. apply exec_plus_max; tok.
    rewrite exec_seq_cons. apply exec_lit. cbn [app].
    rewrite exec_seq_cons. apply exec_grp_plus_max; tok; assumption. }
  destruct A as [a|]; cbn [angle_text].
  - destruct HA as [? ?]. rewrite <- !app_assoc.
    rewrite exec_seq_cons. apply exec_grp_plus_max; tok; try assumption.
    rewrite exec_seq_cons. apply exec_opt_take. rewrite exec_cat.
    apply exec_plus_max; tok.
    { apply numeral_stops_space; split; assumption. }
    apply exec_grp_plus_max; tok; try assumption.
    apply Tail.
  - cbn [app].
    rewrite exec_seq_cons. apply exec_grp_plus_max; tok; try assumption.
    rewrite exec_seq_cons. rewrite exec_opt_skip by reflexivity.
    apply Tail.
Qed.

Lemma decl_text_open (d : decl) :
  exists r, decl_text d = "("%char :: r.
Proof. unfold decl_text. cbn [s_ list_ascii_of_string app]. eauto. Qed.

Lemma pins_text_open (ds : list (decl * str)) :
  pins_text ds = [] \/ exists r, pins_text ds = "("%char :: r.
Proof.
  destruct ds as [|[d gap] ds]; [left; reflexivity|right].
  cbn [pins_text]. destruct (decl_text_open d) as [r ->].
  cbn [app]. eauto.
Qed.

Lemma finditer_pins_text (ds : list (decl * str)) :
  Forall (fun dg => well_formed (fst dg) /\ pin_gap (snd dg)) ds ->
  finditer_from pin_regex (pins_text ds) 0 =
  map (fun dg => groups_of (fst dg)) ds.
Proof.
  induction 1 as [|[d gap] ds [Hd Hg] _ IH]; [reflexivity|].
  cbn [pins_text map fst snd] in *.
  rewrite (finditer_here pin_regex (decl_text d) _ (groups_of d)).
  - f_equal. rewrite <- IH.
    apply finditer_gap; [exact Hg|]. apply pins_text_open.
  - destruct (decl_text_open d) as [r ->]. discriminate.
  - apply decl_text_match. exact Hd.
Qed.

Lemma finditer_block (g0 : str) (ds : list (decl * str)) :
  pin_gap g0 ->
  Forall (fun dg => well_formed (fst dg) /\ pin_gap (snd dg)) ds ->
  finditer pin_regex (g0 ++ pins_text ds) =
  map (fun dg => groups_of (fst dg)) ds.
Proof.
  intros H0 Hds. unfold finditer. rewrite <- (finditer_pins_text ds Hds).
  apply finditer_gap; [exact H0|]. apply pins_text_open.
Qed.

Lemma group_text_of (d : decl) :
  group_text 1 (groups_of d) = d_type d /\
  group_text 2 (groups_of d) = d_x d /\
  group_text 3 (groups_of d) = d_y d /\
  group 4 (groups_of d) = d_angle d /\
  group_text 5 (groups_of d) = d_name d /\
  group_text 6 (groups_of d) = d_number d.
Proof. unfold groups_of. destruct (d_angle d); repeat split. Qed.

Lemma pin_of_decl_reads (d : decl) (p : Pin.t) :
  pin_of_match (groups_of d) = Some p -> reads d p.
Proof.
  destruct (group_text_of d) as (E1 & E2 & E3 & E4 & E5 & E6).
  unfold pin_of_match, reads, bind. rewrite E1, E2, E3, E4, E5, E6.
  destruct (float_of_string (d_x d)) as [vx|]; [|discriminate].
  destruct (float_of_string (d_y d)) as [vy|]; [|discriminate].
  destruct (d_angle d) as [[|c a]|];
    [| destruct (float_of_string (c :: a)); [|discriminate] |];
    intros [= <-]; exists vx, vy; repeat split.
Qed.

Lemma pin_of_decl_converts (d : decl) :
  well_formed d -> converts d -> pin_of_match (groups_of d) <> None.
Proof.
  intros (_ & _ & _ & _ & HA & _) (Hx & Hy & Ha).
  destruct (group_text_of d) as (E1 & E2 & E3 & E4 & E5 & E6).
  unfold pin_of_match, bind. rewrite E1, E2, E3, E4, E5, E6.
  destruct (float_of_string (d_x d)) as [vx|]; [|congruence].
  destruct (float_of_string (d_y d)) as [vy|]; [|congruence].
  destruct (d_angle d) as [[|c a]|]; try discriminate.
  destruct (float_of_string (c :: a)); [discriminate|congruence].
Qed.

Lemma mapM_reads (ds : list decl) (ps : list Pin.t) :
  mapM pin_of_match (map groups_of ds) = Some ps -> Forall2 reads ds ps.
Proof.
  revert ps; induction ds as [|d ds IH]; intros ps; cbn [map mapM].
  - intros [= <-]. constructor.
  - unfold bind.
    destruct (pin_of_match (groups_of d)) as [p|] eqn:E; [|discriminate].
    destruct (mapM pin_of_match (map groups_of ds)) as [ps'|];
      [|discriminate].
    intros [= <-]. constructor; [apply pin_of_decl_reads; exact E|].
    apply IH. reflexivity.
Qed.

Lemma mapM_converts (ds : list decl) :
  Forall well_formed ds -> Forall converts ds ->
  mapM pin_of_match (map groups_of ds) <> None.
Proof.
  induction 1 as [|d ds Hd _ IH]; intros Hc; cbn [map mapM];
    [discriminate|].
  inversion Hc as [|? ? Hcd Hcs]; subst. unfold bind.
  destruct (pin_of_match (groups_of d)) as [p|] eqn:E;
    [|exfalso; exact (pin_of_decl_converts d Hd Hcd E)].
  destruct (mapM pin_of_match (map groups_of ds)) as [ps'|] eqn:E';
    [discriminate|]. exfalso. exact (IH Hcs eq_refl).
Qed.

Lemma extract_pins_block (g0 : str) (ds : list (decl * str)) :
  pin_gap g0 ->
  Forall (fun dg => well_formed (fst dg) /\ pin_gap (snd dg)) ds ->
  extract_pins (g0 ++ pins_text ds) =
  mapM pin_of_match (map groups_of (map fst ds)).
Proof.
  intros H0 Hds. unfold extract_pins. rewrite (finditer_block g0 ds H0 Hds).
  rewrite map_map. reflexivity.
Qed.

(** ** The claim on the sign of [y] *)

(** C5, as stated, fails: the pin pattern asks for two words between [(pin]
    and the position.  The declaration [(pin passive (at 0 5) ...)] alone
    in its block yields no pin; followed by a declaration at [(at 1 6)] it
    yields one pin, with the type of the first declaration and the
    position, name and number of the second: [x = 1] and [y = -6], and no
    pin with [y = -5]. *)
Lemma C5_counterexample :
  parse_symbol_block (s_ "R") (bare_pin_block (s_ "0") (s_ "5")) =
  Some (Sym.mk (s_ "R") [] None None (bare_pin_block (s_ "0") (s_ "5"))) /\
  contains (s_ "(pin passive (at 0 5)") (bare_pin_block (s_ "0") (s_ "5"))
  = true /\
  contains (s_ "(pin passive (at 0 5)") one_word_then_two = true /\
  float_of_string (s_ "5") = Some (S754_finite false 5629499534213120 (-50))
  /\
  exists p,
    parse_symbol_block (s_ "R") one_word_then_two =
    Some (Sym.mk (s_ "R") [p] None None one_word_then_two) /\
    Pin.electrical_type p = s_ "passive" /\
    Pin.x p = S754_finite false 4503599627370496 (-52) /\
    Pin.y p = S754_finite true 6755399441055744 (-50) /\
    Pin.name p = s_ "2" /\ Pin.number p = s_ "2" /\
    Pin.y p <> SFopp (S754_finite false 5629499534213120 (-50)).
Proof.
  split; [vm_compute; reflexivity|].
  split; [vm_compute; reflexivity|].
  split; [vm_compute; reflexivity|].
  split; [vm_compute; reflexivity|].
  exists (Pin.mk (s_ "passive") (S754_finite false 4503599627370496 (-52))
                 (S754_finite true 6755399441055744 (-50)) (PyInt 0)
                 (s_ "2") (s_ "2")).
  split; [vm_compute; reflexivity|].
  repeat split. cbn. discriminate.
Qed.

(** C5, amended: every pin of an entry comes from one match of the pin
    pattern in the block, in order, with [x] the number read from the
    first coordinate the match captured and [y] the opposite of the number
    read from the second.  In a block whose pin declarations all have two
    words in front of the position, the declarations being separated by
    text in which [(pin] and a white space occur nowhere, the pins are the
    declared ones, in order: each has [x = float(X)] and [y = -float(Y)]
    for the position [(at X Y)] of its own declaration; and the pins are
    extracted whenever every number converts. *)
Theorem C5_two_word_pins_y_is_negated :
  (forall i block e,
      parse_symbol_block i block = Some e ->
      Forall2 (fun m p =>
                 exists vx vy,
                   float_of_string (group_text 2 m) = Some vx /\
                   float_of_string (group_text 3 m) = Some vy /\
                   Pin.x p = vx /\ Pin.y p = SFopp vy)
              (finditer pin_regex block) (Sym.pins e)) /\
  (forall i g0 ds,
      pin_gap g0 ->
      Forall (fun dg => well_formed (fst dg) /\ pin_gap (snd dg))
             ds ->
      (forall e,
          parse_symbol_block i (g0 ++ pins_text ds) = Some e ->
          Forall2 reads (map fst ds) (Sym.pins e)) /\
      (Forall converts (map fst ds) ->
       exists ps,
         extract_pins (g0 ++ pins_text ds) = Some ps /\
         Forall2 reads (map fst ds) ps)).
Proof.
  split.
  - intros i block e H. apply pins_at_matches in H.
    eapply Forall2_impl; [|exact H].
    intros m p (vx & vy & H1 & H2 & H3 & H4). exists vx, vy. auto.
  - intros i g0 ds H0 Hds.
    pose proof (extract_pins_block g0 ds H0 Hds) as E. split.
    + intros e. unfold parse_symbol_block, bind. rewrite E.
      destruct (mapM pin_of_match _) as [ps|] eqn:M; [|discriminate].
      destruct (extract_bbox _); [|discriminate].
      intros [= <-]. cbn [Sym.pins]. apply mapM_reads. exact M.
    + intros Hc. rewrite E.
      destruct (mapM pin_of_match _) as [ps|] eqn:M.
      * exists ps. split; [reflexivity|]. apply mapM_reads. exact M.
      * exfalso. revert M. apply mapM_converts; [|exact Hc].
        apply Forall_map. eapply Forall_impl; [|exact Hds].
        intros dg [H _]. exact H.
Qed.


Ltac concrete_decl :=
  repeat first
    [ split
    | discriminate
    | reflexivity
    | constructor ].

Lemma C5_two_word_pins_y_is_negated_witness :
  pin_gap two_pins_head /\
  Forall (fun dg => well_formed (fst dg) /\ pin_gap (snd dg)) two_pins /\
  exists e,
    parse_symbol_block (s_ "R") two_pins_block = Some e /\
    Forall2 reads [decl_1; decl_2] (Sym.pins e) /\
    map Pin.y (Sym.pins e) =
    [S754_finite true 5629499534213120 (-50);
     S754_finite false 5629499534213120 (-51)].
Proof.
  assert (G : pin_gap two_pins_head) by reflexivity.
  assert (W : Forall (fun dg => well_formed (fst dg) /\ pin_gap (snd dg))
                     two_pins).
  { unfold two_pins, well_formed, word, in_quotes, numeral, free, pin_gap.
    cbn [fst snd decl_1 decl_2 d_type d_style d_x d_y d_angle d_mid1 d_name
         d_mid2 d_number].
    concrete_decl. }
  split; [exact G|]. split; [exact W|].
  destruct (parse_symbol_block (s_ "R") two_pins_block) as [e|] eqn:E;
    [|vm_compute in E; discriminate E].
  exists e. split; [reflexivity|]. split.
  - destruct C5_two_word_pins_y_is_negated as [_ H].
    destruct (H (s_ "R") two_pins_head two_pins G W) as [H1 _].
    apply (H1 e). exact E.
  - vm_compute in E. injection E as <-. reflexivity.
Defined.

(** * The run of [main] on a directory *)

Lemma read_files_fails (read : str -> option str) (files : list str)
      (all_symbols : index) :
  read_files read files all_symbols = None <->
  exists f, In f files /\
            (read f = None \/
             exists c, read f = Some c /\ parse_kicad_sym c = None).
Proof.
  revert all_symbols.
  induction files as [|f fs IH]; intros all_symbols; cbn [read_files].
  - split; [discriminate|]. intros (f & [] & _).
  - unfold bind. destruct (read f) as [c|] eqn:Rf.
    + destruct (parse_kicad_sym c) as [t|] eqn:P.
      * rewrite IH. split.
        -- intros (f' & Hin & H). exists f'. split; [right; exact Hin|exact H].
        -- intros (f' & [<-|Hin] & H); [|eauto].
           destruct H as [H|(c' & H1 & H2)]; congruence.
      * split; [|reflexivity]. intros _. exists f. split; [left; reflexivity|].
        right. eauto.
    + split; [|reflexivity]. intros _. exists f. split; [left; reflexivity|].
      left. exact Rf.
Qed.

Lemma read_files_merge (read : str -> option str) (files contents : list str)
      (all_symbols : index) :
  mapM read files = Some contents ->
  read_files read files all_symbols = merge_files contents all_symbols.
Proof.
  revert contents all_symbols.
  induction files as [|f fs IH]; intros contents all_symbols;
    cbn [mapM read_files].
  - intros [= <-]. reflexivity.
  - unfold bind at 1 3. destruct (read f) as [c|]; [|discriminate].
    unfold bind at 1. destruct (mapM read fs) as [cs|] eqn:M; [|discriminate].
    intros [= <-]. cbn [bind merge_files]. unfold bind.
    destruct (parse_kicad_sym c); [|reflexivity]. apply IH. reflexivity.
Qed.

(** X14: with the outcome of listing the directory, of opening and reading
    each file and of writing the output given, [main] ends with an
    exception exactly when a file it selected cannot be opened or read, or
    has a text that makes [parse_kicad_sym] raise, or when the output cannot
    be written; a directory that cannot be listed is no error.  When every
    selected file is read and the output can be written, what is written is
    the resolved merge of the texts. *)
Theorem X14_run_fails_iff_read_parse_or_write_fails (w : world) :
  (main_run w = None <->
   (exists f,
       In f (find_sym_files (listing w) SYMBOLS_DIR) /\
       (read_text w f = None \/
        exists c, read_text w f = Some c /\ parse_kicad_sym c = None)) \/
   writable w = false) /\
  (forall contents,
      mapM (read_text w) (find_sym_files (listing w) SYMBOLS_DIR)
      = Some contents ->
      writable w = true ->
      main_run w = main contents).
Proof.
  split.
  - unfold main_run, bind.
    rewrite <- (read_files_fails (read_text w) _ []).
    destruct (read_files _ _ _) as [m|].
    + destruct (writable w); split; try discriminate; auto.
      * intros [H|H]; discriminate.
    + split; auto.
  - intros contents M W. unfold main_run, main, bind.
    rewrite (read_files_merge _ _ _ _ M), W.
    destruct (merge_files contents []); reflexivity.
Qed.

Lemma X14_run_fails_iff_read_parse_or_write_fails_witness :
  main_run world_1 = main [file1] /\ main_run world_1 <> None.
Proof.
  destruct (X14_run_fails_iff_read_parse_or_write_fails world_1) as [F C].
  split.
  - apply (C [file1]); reflexivity.
  - intros H. apply F in H. destruct H as [(f & Hin & H)|H]; [|discriminate H].
    vm_compute in Hin. destruct Hin as [<-|[]].
    destruct H as [H|(c & H1 & H2)]; [discriminate H|].
    vm_compute in H1. injection H1 as <-. vm_compute in H2. discriminate H2.
Defined.
